(** * Astro Inspector: tree extraction, filtering and highlighting

    A shallow embedding of the panel application ([App.tsx]: tree model,
    in-page tree builder, keyboard controller) and of the in-page
    highlighter ([highlighter.ts]), with the properties of the
    specification stated and proved over it. *)

From Stdlib Require Import ZArith QArith String Ascii List Bool Lia.
From Stdlib Require Import DecimalString DecimalNat.
From stdpp Require Import gmap strings list.

Set Warnings "-register-all".

Local Open Scope string_scope.
Local Open Scope nat_scope.

(** ** JavaScript built-ins used by the sources *)

Module JS.

(** Outcome of a computation that may throw. *)
Inductive Completion (A : Type) : Type :=
| Return (a : A)
| Throw.
Arguments Return {A} a.
Arguments Throw {A}.

(** Values produced by [JSON.parse].  Numbers are kept as rationals; the
    only thing the sources ask of a number is whether it is zero. *)
Inductive JSON : Type :=
| JNull
| JBool (b : bool)
| JNum (q : Q)
| JStr (s : string)
| JArr (l : list JSON)
| JObj (fields : list (string * JSON)).

(** A value of an optional binding: [None] is [undefined]. *)
Definition truthy (v : option JSON) : bool :=
  match v with
  | None => false
  | Some JNull => false
  | Some (JBool b) => b
  | Some (JNum q) => negb (Qeq_bool q 0)
  | Some (JStr s) => negb (String.eqb s "")
  | Some (JArr _) => true
  | Some (JObj _) => true
  end.

Fixpoint assoc (k : string) (l : list (string * JSON)) : option JSON :=
  match l with
  | [] => None
  | (k', v) :: l' => if String.eqb k k' then Some v else assoc k l'
  end.

(** Property read [v.k]: reading a property of [null] throws a
    [TypeError]; on an object it is the field or [undefined]; the other
    JSON values have no own property of the names read here. *)
Definition getProp (v : JSON) (k : string) : Completion (option JSON) :=
  match v with
  | JNull => Throw
  | JObj fields => Return (assoc k fields)
  | _ => Return None
  end.

(** [s.toLowerCase()] on ASCII letters. *)
Definition lowerAscii (c : ascii) : ascii :=
  let n := nat_of_ascii c in
  if (65 <=? n) && (n <=? 90) then ascii_of_nat (n + 32) else c.

Fixpoint toLowerCase (s : string) : string :=
  match s with
  | EmptyString => EmptyString
  | String c s' => String (lowerAscii c) (toLowerCase s')
  end.

(** [needle] occurs in [s] at offset 0. *)
Fixpoint startsWith (s needle : string) : bool :=
  match needle with
  | EmptyString => true
  | String a needle' =>
      match s with
      | EmptyString => false
      | String b s' => Ascii.eqb a b && startsWith s' needle'
      end
  end.

(** [s.includes(needle)]: [needle] occurs in [s] at some offset. *)
Fixpoint includes (s needle : string) : bool :=
  startsWith s needle ||
  match s with
  | EmptyString => false
  | String _ s' => includes s' needle
  end.

(** [s.split(".")]: the empty string splits into one empty piece. *)
Fixpoint split (s : string) : list string :=
  match s with
  | EmptyString => [EmptyString]
  | String c s' =>
      if Ascii.eqb c "."%char then EmptyString :: split s'
      else match split s' with
           | h :: t => String c h :: t
           | [] => [String c EmptyString]
           end
  end.

(** Template-literal rendering [`${i}`] of an array index. *)
Definition toString (i : nat) : string :=
  NilEmpty.string_of_uint (Nat.to_uint i).

(** [Number(s)] as far as it is used to index [element.children]:
    the empty string converts to 0 and a string of decimal digits to its
    value; any other string is taken to give no usable index (for [NaN],
    a negative or a fractional number [children[index]] is [undefined]).
    Exponent, hexadecimal and blank-padded numerals, which [Number] also
    accepts, are outside this model. *)
Definition Number (s : string) : option nat :=
  match s with
  | EmptyString => Some 0
  | _ => match NilEmpty.uint_of_string s with
         | Some d => Some (Nat.of_uint d)
         | None => None
         end
  end.

(** JavaScript numbers as they occur in rectangles: finite values are
    integers (pixels; fractions and rounding are not modelled), together
    with the two infinities and [NaN]. *)
Inductive num : Type :=
| NaN
| NegInf
| Fin (z : Z)
| PosInf.

(** Strict equality [a === b]. *)
Definition num_eq (a b : num) : bool :=
  match a, b with
  | NegInf, NegInf => true
  | PosInf, PosInf => true
  | Fin x, Fin y => Z.eqb x y
  | _, _ => false
  end.

(** [a > b]. *)
Definition num_gt (a b : num) : bool :=
  match a, b with
  | NaN, _ | _, NaN => false
  | PosInf, PosInf => false
  | PosInf, _ => true
  | _, NegInf => match a with NegInf => false | _ => true end
  | Fin x, Fin y => Z.ltb y x
  | _, _ => false
  end.

Definition Math_min (a b : num) : num :=
  match a, b with
  | NaN, _ | _, NaN => NaN
  | NegInf, _ | _, NegInf => NegInf
  | PosInf, x | x, PosInf => x
  | Fin x, Fin y => Fin (Z.min x y)
  end.

Definition Math_max (a b : num) : num :=
  match a, b with
  | NaN, _ | _, NaN => NaN
  | PosInf, _ | _, PosInf => PosInf
  | NegInf, x | x, NegInf => x
  | Fin x, Fin y => Fin (Z.max x y)
  end.

(** [a - b]. *)
Definition num_sub (a b : num) : num :=
  match a, b with
  | NaN, _ | _, NaN => NaN
  | PosInf, PosInf | NegInf, NegInf => NaN
  | PosInf, _ | _, NegInf => PosInf
  | NegInf, _ | _, PosInf => NegInf
  | Fin x, Fin y => Fin (x - y)
  end.

(** [s.indexOf(needle)]: the first offset at which [needle] occurs;
    [None] is [-1]. *)
Fixpoint indexOf (s needle : string) : option nat :=
  if startsWith s needle then Some 0
  else match s with
       | EmptyString => None
       | String _ s' =>
           match indexOf s' needle with
           | Some i => Some (S i)
           | None => None
           end
       end.

(** The first [n] characters of [s] (all of it when it is shorter). *)
Fixpoint takeS (n : nat) (s : string) : string :=
  match n, s with
  | S n', String c s' => String c (takeS n' s')
  | _, _ => EmptyString
  end.

(** [s] without its first [n] characters. *)
Fixpoint dropS (n : nat) (s : string) : string :=
  match n, s with
  | S n', String _ s' => dropS n' s'
  | _, _ => s
  end.

(** [s.slice(a, b)] for offsets [0 <= a <= b]; both are clamped to the
    length of [s]. *)
Definition slice (s : string) (a b : nat) : string :=
  takeS (b - a) (dropS a s).

(** [s.slice(a)] for an offset [0 <= a]. *)
Definition sliceFrom (s : string) (a : nat) : string := dropS a s.

End JS.

(** ** The inspected page *)

Module Dom.

Import JS.

(** Result of [getBoundingClientRect()] ([x] and [y] repeat [left] and
    [top]). *)
Record Rect : Type := mkRect {
  top : num;
  left : num;
  right : num;
  bottom : num;
  width : num;
  height : num
}.

(** A live element: tag name, attributes in source order, layout box and
    element children in document order. *)
Inductive Element : Type := mkElement {
  tagName : string;
  attributes : list (string * string);
  rect : Rect;
  children : list Element
}.

(** [element.getAttribute(name)]: [None] is [null]. *)
Fixpoint getAttribute (attrs : list (string * string)) (name : string)
  : option string :=
  match attrs with
  | [] => None
  | (k, v) :: attrs' =>
      if String.eqb k name then Some v else getAttribute attrs' name
  end.

(** [a || fallback] on a nullable string: [null] and the empty string are
    falsy. *)
Definition orElse (a : option string) (fallback : string) : string :=
  match a with
  | Some (String c s) => String c s
  | _ => fallback
  end.

(** Truthiness of a nullable string. *)
Definition nonEmpty (a : option string) : bool :=
  match a with
  | Some (String _ _) => true
  | _ => false
  end.

End Dom.

(** ** The panel application ([App.tsx]) *)

Module App.

Import JS.

(** [TreeNodeData] of the in-page builder.  [componentName] and [props]
    hold whatever [JSON.parse] delivered. *)
Inductive TreeNode : Type := mkTreeNode {
  id : string;
  tagName : string;
  isAstroIsland : bool;
  componentName : option JSON;
  clientDirective : option string;
  props : option JSON;
  framework : option string;
  children : list TreeNode;
  depth : nat;
  path : string
}.

(** The object spread [{ ...node, children: cs }]. *)
Definition withChildren (node : TreeNode) (cs : list TreeNode) : TreeNode :=
  mkTreeNode (id node) (tagName node) (isAstroIsland node)
    (componentName node) (clientDirective node) (props node)
    (framework node) cs (depth node) (path node).

(** Recursively check if a node or any descendant is an island. *)
Fixpoint hasIslandDescendant (node : TreeNode) : bool :=
  if isAstroIsland node then true
  else (fix some (l : list TreeNode) : bool :=
          match l with
          | [] => false
          | c :: l' => if hasIslandDescendant c then true else some l'
          end) (children node).

(** Collect all node ids that lead to islands; the mutated [result] set is
    threaded through. *)
Fixpoint collectExpandedNodes (node : TreeNode) (result : gset string)
  : gset string :=
  let result := {[ id node ]} ∪ result in
  (fix each (l : list TreeNode) (result : gset string) : gset string :=
     match l with
     | [] => result
     | child :: l' =>
         each l' (if hasIslandDescendant child
                  then collectExpandedNodes child result
                  else result)
     end) (children node) result.

(** Flatten the visible tree into a list for keyboard navigation; the
    array [result] that every call pushes to is threaded through. *)
Fixpoint flattenVisibleTree (node : TreeNode) (expandedNodes : gset string)
  (result : list TreeNode) : list TreeNode :=
  let result := (result ++ [node])%list in
  if bool_decide (id node ∈ expandedNodes) then
    (fix each (l : list TreeNode) (result : list TreeNode) : list TreeNode :=
       match l with
       | [] => result
       | child :: l' => each l' (flattenVisibleTree child expandedNodes result)
       end) (children node) result
  else result.

(** Find parent node in tree. *)
Fixpoint findParent (root : TreeNode) (targetId : string)
  (parent : option TreeNode) : option TreeNode :=
  if String.eqb (id root) targetId then parent
  else (fix each (l : list TreeNode) : option TreeNode :=
          match l with
          | [] => None
          | child :: l' =>
              match findParent child targetId (Some root) with
              | Some found => Some found
              | None => each l'
              end
          end) (children root).

(** The [filter] of the [filteredTree] memo: islands only.  The inner
    loop is [node.children.map(filter).filter(c => c !== null)]. *)
Fixpoint filter (node : TreeNode) : option TreeNode :=
  let filteredChildren :=
    (fix mapFilter (l : list TreeNode) : list TreeNode :=
       match l with
       | [] => []
       | c :: l' =>
           match filter c with
           | Some c' => c' :: mapFilter l'
           | None => mapFilter l'
           end
       end) (children node) in
  if isAstroIsland node then Some (withChildren node filteredChildren)
  else if 0 <? length filteredChildren
       then Some (withChildren node filteredChildren)
       else None.

(** *** The in-page tree builder *)

(** The fallback pattern [/\/([^/]+?)(?:\.[^.]+)?$/], matched with the
    backtracking order of the engine.  [noDot s]: every character of [s]
    is in the class [[^.]]. *)
Fixpoint noDot (s : string) : bool :=
  match s with
  | EmptyString => true
  | String c s' => negb (Ascii.eqb c ".") && noDot s'
  end.

(** [(?:\.[^.]+)?$] at the current position: the optional group takes a
    dot and then, greedily, one or more characters other than a dot, and
    must reach the end of the input; when it cannot, it is skipped and the
    input has to end here. *)
Definition extensionThenEnd (s : string) : bool :=
  match s with
  | EmptyString => true
  | String c s' =>
      Ascii.eqb c "." && negb (String.eqb s' EmptyString) && noDot s'
  end.

(** The lazy group [([^/]+?)] holding [captured]: try the rest of the
    pattern first, take one more character other than a slash only when
    that fails. *)
Fixpoint lazySegment (captured : string) (s : string) : option string :=
  if extensionThenEnd s then Some captured
  else match s with
       | EmptyString => None
       | String c s' =>
           if Ascii.eqb c "/" then None
           else lazySegment (captured +:+ String c EmptyString) s'
       end.

(** The pattern right after a slash it has matched. *)
Definition matchAfterSlash (s : string) : option string :=
  match s with
  | EmptyString => None
  | String c s' =>
      if Ascii.eqb c "/" then None else lazySegment (String c EmptyString) s'
  end.

(** [url.match(...)?.[1]]: start positions are tried from the left and
    the first that matches wins; [None] when there is no match. *)
Fixpoint matchUrl (url : string) : option string :=
  match url with
  | EmptyString => None
  | String c s' =>
      if Ascii.eqb c "/" then
        match matchAfterSlash s' with
        | Some g => Some g
        | None => matchUrl s'
        end
      else matchUrl s'
  end.

(** The child path [path ? `${path}.${i}` : `${i}`]. *)
Definition childPath (path : string) (i : nat) : string :=
  match path with
  | EmptyString => toString i
  | _ => path +:+ "." +:+ toString i
  end.

Section Builder.

(** [JSON.parse] of the host: a value, or a thrown [SyntaxError]. *)
Variable JSON_parse : string -> Completion JSON.

(** [if (opts) { try { componentName = JSON.parse(opts).name; } catch {} }] *)
Definition optsName (opts : option string) : option JSON :=
  match opts with
  | Some (String c s) =>
      match JSON_parse (String c s) with
      | Return v =>
          match getProp v "name" with
          | Return name => name
          | Throw => None
          end
      | Throw => None
      end
  | _ => None
  end.

Definition componentNameOf (attrs : list (string * string)) : option JSON :=
  let componentName := optsName (Dom.getAttribute attrs "opts") in
  if truthy componentName then componentName
  else
    let url := Dom.orElse (Dom.getAttribute attrs "component-url") "" in
    Some (JStr (Dom.orElse (matchUrl url) "Island")).

Definition propsOf (attrs : list (string * string)) : option JSON :=
  match Dom.getAttribute attrs "props" with
  | Some (String c s) =>
      if String.eqb (String c s) "{}" then None
      else match JSON_parse (String c s) with
           | Return v => Some v
           | Throw => None
           end
  | _ => None
  end.

Definition frameworkOf (attrs : list (string * string)) : option string :=
  let renderer := Dom.orElse (Dom.getAttribute attrs "renderer-url") "" in
  if includes renderer "react" || includes renderer "client.C" then
    Some "React"
  else if includes renderer "vue" then Some "Vue"
  else if includes renderer "svelte" then Some "Svelte"
  else if includes renderer "solid" then Some "Solid"
  else if includes renderer "preact" then Some "Preact"
  else None.

(** [buildTree(element, depth, path)].  The counter [nodeId] of the
    enclosing [buildTreeInPage] is threaded through: the node takes its
    id first, then the children are built from left to right. *)
Fixpoint buildTree (element : Dom.Element) (depth : nat) (path : string)
  (nodeId : nat) : TreeNode * nat :=
  let tagName := toLowerCase (Dom.tagName element) in
  let isIsland := String.eqb tagName "astro-island" in
  let attrs := Dom.attributes element in
  let componentName := if isIsland then componentNameOf attrs else None in
  let clientDirective :=
    if isIsland then Some (Dom.orElse (Dom.getAttribute attrs "client") "load")
    else None in
  let props := if isIsland then propsOf attrs else None in
  let framework := if isIsland then frameworkOf attrs else None in
  let '(kids, nodeId') :=
    (fix forEach (l : list Dom.Element) (i : nat) (nodeId : nat)
       : list TreeNode * nat :=
       match l with
       | [] => ([], nodeId)
       | child :: l' =>
           let '(k, nodeId1) :=
             buildTree child (depth + 1) (childPath path i) nodeId in
           let '(ks, nodeId2) := forEach l' (S i) nodeId1 in
           (k :: ks, nodeId2)
       end) (Dom.children element) 0 (S nodeId) in
  (mkTreeNode ("node-" +:+ toString nodeId) tagName isIsland componentName
     clientDirective props framework kids depth path,
   nodeId').

Definition buildTreeInPage (body : Dom.Element) : TreeNode :=
  fst (buildTree body 0 "" 0).

End Builder.

(** *** Session state and the keyboard controller *)

Record Session : Type := mkSession {
  tree : option TreeNode;
  selectedNode : option TreeNode;
  showIslandsOnly : bool;
  searchQuery : string;
  expandedNodes : gset string;
  isLoading : bool;
  error : option string
}.

Definition setSelectedNode (s : Session) (n : TreeNode) : Session :=
  mkSession (tree s) (Some n) (showIslandsOnly s) (searchQuery s)
    (expandedNodes s) (isLoading s) (error s).

Definition setExpandedNodes (s : Session) (e : gset string) : Session :=
  mkSession (tree s) (selectedNode s) (showIslandsOnly s) (searchQuery s)
    e (isLoading s) (error s).

Definition toggleNode (nodeId : string) (s : Session) : Session :=
  let prev := expandedNodes s in
  setExpandedNodes s
    (if bool_decide (nodeId ∈ prev) then prev ∖ {[ nodeId ]}
     else {[ nodeId ]} ∪ prev).

Definition filteredTree (s : Session) : option TreeNode :=
  match tree s with
  | None => None
  | Some t => if showIslandsOnly s then filter t else Some t
  end.

Definition visibleNodes (s : Session) : list TreeNode :=
  match filteredTree s with
  | None => []
  | Some ft => flattenVisibleTree ft (expandedNodes s) []
  end.

(** [l.findIndex(p)], with [-1] for no match. *)
Fixpoint findIndex (p : TreeNode -> bool) (l : list TreeNode) : Z :=
  match l with
  | [] => (-1)%Z
  | n :: l' =>
      if p n then 0%Z
      else let r := findIndex p l' in
           if (r <? 0)%Z then (-1)%Z else (r + 1)%Z
  end.

(** [l[i]]: [None] is [undefined]. *)
Definition index (l : list TreeNode) (i : Z) : option TreeNode :=
  if (i <? 0)%Z then None else l !! Z.to_nat i.

(** What one key press leaves behind: the next session state, whether
    [preventDefault] was called, and the path handed to
    [scrollToElement], if any. *)
Record Handled : Type := mkHandled {
  next : Session;
  defaultPrevented : bool;
  scrolledTo : option string
}.

Definition selectAndScroll (s : Session) (target : option TreeNode)
  : Handled :=
  match target with
  | Some n => mkHandled (setSelectedNode s n) true (Some (path n))
  | None => mkHandled s true None
  end.

Definition handleKeyDown (s : Session) (key : string) : Handled :=
  match filteredTree s with
  | None => mkHandled s false None
  | Some ft =>
      if length (visibleNodes s) =? 0 then mkHandled s false None
      else
        let currentIndex :=
          match selectedNode s with
          | Some sel =>
              findIndex (fun n => String.eqb (id n) (id sel)) (visibleNodes s)
          | None => (-1)%Z
          end in
        if String.eqb key "ArrowDown" then
          let nextIndex :=
            Z.min (currentIndex + 1) (Z.of_nat (length (visibleNodes s)) - 1) in
          selectAndScroll s (index (visibleNodes s) nextIndex)
        else if String.eqb key "ArrowUp" then
          let prevIndex := Z.max (currentIndex - 1) 0 in
          selectAndScroll s (index (visibleNodes s) prevIndex)
        else if String.eqb key "ArrowRight" then
          match selectedNode s with
          | Some sel =>
              if negb (bool_decide (id sel ∈ expandedNodes s))
                 && (0 <? length (children sel))
              then mkHandled (toggleNode (id sel) s) true None
              else if (0 <? length (children sel))
                      && bool_decide (id sel ∈ expandedNodes s)
              then selectAndScroll s (children sel !! 0)
              else mkHandled s true None
          | None => mkHandled s true None
          end
        else if String.eqb key "ArrowLeft" then
          match selectedNode s with
          | Some sel =>
              if bool_decide (id sel ∈ expandedNodes s)
                 && (0 <? length (children sel))
              then mkHandled (toggleNode (id sel) s) true None
              else selectAndScroll s (findParent ft (id sel) None)
          | None => mkHandled s true None
          end
        else if String.eqb key "Enter" then
          match selectedNode s with
          | Some sel => mkHandled s true (Some (path sel))
          | None => mkHandled s true None
          end
        else mkHandled s false None
  end.

(** *** Expanding, collapsing and fetching *)

(** The [collect] of [expandAll]: every id of the tree goes into [all]. *)
Fixpoint collect (node : TreeNode) (all : gset string) : gset string :=
  let all := {[ id node ]} ∪ all in
  (fix each (l : list TreeNode) (all : gset string) : gset string :=
     match l with
     | [] => all
     | child :: l' => each l' (collect child all)
     end) (children node) all.

Definition expandAll (s : Session) : Session :=
  match tree s with
  | None => s
  | Some t => setExpandedNodes s (collect t ∅)
  end.

Definition collapseAll (s : Session) : Session := setExpandedNodes s ∅.

Definition setTree (s : Session) (t : TreeNode) : Session :=
  mkSession (Some t) (selectedNode s) (showIslandsOnly s) (searchQuery s)
    (expandedNodes s) (isLoading s) (error s).

Definition setIsLoading (s : Session) (b : bool) : Session :=
  mkSession (tree s) (selectedNode s) (showIslandsOnly s) (searchQuery s)
    (expandedNodes s) b (error s).

Definition setError (s : Session) (e : option string) : Session :=
  mkSession (tree s) (selectedNode s) (showIslandsOnly s) (searchQuery s)
    (expandedNodes s) (isLoading s) e.

(** How [chrome.scripting.executeScript] ends: it rejects, with an
    [Error] carrying a message or with some other value, or it resolves,
    and [results?.[0]?.result] is a tree or nothing. *)
Inductive ScriptOutcome : Type :=
| Rejected (message : option string)
| Resolved (treeData : option TreeNode).

(** [fetchTree], given the inspected tab id ([None] and 0 are falsy) and
    the way the injected script ends.  The [finally] clause runs on every
    way out. *)
Definition fetchTree (tabId : option nat) (script : ScriptOutcome)
  (s : Session) : Session :=
  let s := setIsLoading s true in
  let s := setError s None in
  let s :=
    match tabId with
    | Some (S _) =>
        match script with
        | Resolved (Some treeData) =>
            let s := setTree s treeData in
            setExpandedNodes s (collectExpandedNodes treeData ∅)
        | Resolved None =>
            setError s (Some "Failed to get component tree from page")
        | Rejected message =>
            setError s
              (Some ("Could not connect to the page: " +:+
                     match message with
                     | Some m => m
                     | None => "Unknown error"
                     end))
        end
    | _ => setError s (Some "No inspected tab found")
    end in
  setIsLoading s false.

End App.

(** ** The highlighter ([highlighter.ts]) *)

Module Highlighter.

Import JS.

(** Text of the overlay's label: the lower-cased tag name, or
    [`<${opts.name} />`] built from the value found under [name]. *)
Inductive Label : Type :=
| TagLabel (tag : string)
| ComponentLabel (name : JSON).

(** The overlay element [#__astro_devtools_highlight__]: the rectangle
    its fixed position and size are taken from, and its label. *)
Record Overlay : Type := mkOverlay {
  box : Dom.Rect;
  label : Label
}.

(** The inspected page as the highlighter sees it: the content under
    [document.body], the singleton overlay that is looked up by id,
    removed and appended, and the element last scrolled into view.  In
    the page the overlay is appended to the body; here it has a slot of
    its own, so that structural paths walk the content only. *)
Record Page : Type := mkPage {
  body : Dom.Element;
  overlay : option Overlay;
  inView : option Dom.Element
}.

(** One turn of the resolution loop:
    [if (!element) break; element = element.children[index] || null]. *)
Definition descend (element : option Dom.Element) (idx : option nat)
  : option Dom.Element :=
  match element with
  | None => None
  | Some e =>
      match idx with
      | Some i => Dom.children e !! i
      | None => None
      end
  end.

(** Find the element by path, starting at [document.body]. *)
Definition resolvePath (body : Dom.Element) (elementPath : string)
  : option Dom.Element :=
  match elementPath with
  | EmptyString => Some body
  | _ => fold_left descend (map Number (split elementPath)) (Some body)
  end.

(** The four accumulators of the bounds computation. *)
Record Bounds : Type := mkBounds {
  minX : num;
  minY : num;
  maxX : num;
  maxY : num
}.

Definition sized (r : Dom.Rect) : bool :=
  num_gt (Dom.width r) (Fin 0) && num_gt (Dom.height r) (Fin 0).

Definition zeroSized (r : Dom.Rect) : bool :=
  num_eq (Dom.width r) (Fin 0) || num_eq (Dom.height r) (Fin 0).

Fixpoint calculateBounds (el : Dom.Element) (b : Bounds) : Bounds :=
  let r := Dom.rect el in
  let b :=
    if sized r then
      mkBounds (Math_min (minX b) (Dom.left r)) (Math_min (minY b) (Dom.top r))
               (Math_max (maxX b) (Dom.right r))
               (Math_max (maxY b) (Dom.bottom r))
    else b in
  (fix each (l : list Dom.Element) (b : Bounds) : Bounds :=
     match l with
     | [] => b
     | child :: l' => each l' (calculateBounds child b)
     end) (Dom.children el) b.

(** Whether the bounds are computed from the subtree of [element]. *)
Definition synthesizes (element : Dom.Element) : bool :=
  zeroSized (Dom.rect element) && (0 <? length (Dom.children element)).

(** The rectangle the overlay is laid out from: the element's own, or
    the one combined from its subtree. *)
Definition boundsOf (element : Dom.Element) : Dom.Rect :=
  let rect := Dom.rect element in
  if synthesizes element then
    let b := calculateBounds element (mkBounds PosInf PosInf NegInf NegInf) in
    if negb (num_eq (minX b) PosInf) then
      Dom.mkRect (minY b) (minX b) (maxX b) (maxY b)
        (num_sub (maxX b) (minX b)) (num_sub (maxY b) (minY b))
    else rect
  else rect.

Fixpoint findVisibleChild (el : Dom.Element) : option Dom.Element :=
  if sized (Dom.rect el) then Some el
  else (fix each (l : list Dom.Element) : option Dom.Element :=
          match l with
          | [] => None
          | child :: l' =>
              match findVisibleChild child with
              | Some visible => Some visible
              | None => each l'
              end
          end) (Dom.children el).

Section InPage.

(** [JSON.parse] of the host: a value, or a thrown [SyntaxError]. *)
Variable JSON_parse : string -> Completion JSON.

Definition labelOf (element : Dom.Element) : Label :=
  let tag := toLowerCase (Dom.tagName element) in
  if String.eqb tag "astro-island" then
    match Dom.getAttribute (Dom.attributes element) "opts" with
    | Some (String c s) =>
        match JSON_parse (String c s) with
        | Return opts =>
            match getProp opts "name" with
            | Return (Some name) =>
                if truthy (Some name) then ComponentLabel name
                else TagLabel tag
            | _ => TagLabel tag
            end
        | Throw => TagLabel tag
        end
    | _ => TagLabel tag
    end
  else TagLabel tag.

(** The function [highlightElement] runs in the page. *)
Definition highlightInPage (elementPath : string) (page : Page) : Page :=
  let cleared := mkPage (body page) None (inView page) in
  match resolvePath (body page) elementPath with
  | None => cleared
  | Some element =>
      let rect := boundsOf element in
      if zeroSized rect then cleared
      else mkPage (body page) (Some (mkOverlay rect (labelOf element)))
             (inView page)
  end.

(** [tabId] is [chrome.devtools.inspectedWindow.tabId]; [None] and 0 are
    falsy. *)
Definition hasTab (tabId : option nat) : bool :=
  match tabId with
  | Some (S _) => true
  | _ => false
  end.

Definition highlightElement (tabId : option nat) (path : string)
  (page : Page) : Page :=
  if hasTab tabId then highlightInPage path page else page.

Definition clearHighlight (tabId : option nat) (page : Page) : Page :=
  if hasTab tabId then mkPage (body page) None (inView page) else page.

(** The function [scrollToElement] runs in the page. *)
Definition scrollInPage (elementPath : string) (page : Page) : Page :=
  match resolvePath (body page) elementPath with
  | None => page
  | Some element =>
      let element :=
        if String.eqb (toLowerCase (Dom.tagName element)) "astro-island"
           && (0 <? length (Dom.children element))
        then match findVisibleChild element with
             | Some visibleChild => visibleChild
             | None => element
             end
        else element in
      mkPage (body page) (overlay page) (Some element)
  end.

Definition scrollToElement (tabId : option nat) (path : string)
  (page : Page) : Page :=
  if hasTab tabId then scrollInPage path page else page.

End InPage.

End Highlighter.

(** ** A row of the tree ([TreeNodeItem.tsx]) *)

Module TreeNodeItem.

Import JS.

(** What [highlightText] renders: the text as it is, or the text cut in
    three with the middle piece inside [<mark>]. *)
Inductive Marked : Type :=
| Plain (text : string)
| Mark (before marked after : string).

Section Label.

(** [String.prototype.toLowerCase] of the host.  Label and search text
    are arbitrary text, on which lower-casing follows Unicode and may
    change the length, so it is taken as it comes. *)
Variable toLowerCase : string -> string.

(** Highlight matching text in the node label. *)
Definition highlightText (text query : string) : Marked :=
  match query with
  | EmptyString => Plain text
  | _ =>
      let lowerText := toLowerCase text in
      let lowerQuery := toLowerCase query in
      match indexOf lowerText lowerQuery with
      | None => Plain text
      | Some index =>
          Mark (slice text 0 index)
               (slice text index (index + String.length query))
               (sliceFrom text (index + String.length query))
      end
  end.

End Label.

End TreeNodeItem.

(** ** The panel and the page together *)

Module Panel.

(** The session of the panel, the inspected tab and its page. *)
Record World : Type := mkWorld {
  session : App.Session;
  tabId : option nat;
  page : Highlighter.Page
}.

Section Events.

Variable JSON_parse : string -> JS.Completion JS.JSON.

(** [handleMouseEnter] of a tree row: [highlightElement(node.path)]. *)
Definition handleMouseEnter (node : App.TreeNode) (w : World) : World :=
  mkWorld (session w) (tabId w)
    (Highlighter.highlightElement JSON_parse (tabId w) (App.path node) (page w)).

(** [handleMouseLeave] of a tree row: [clearHighlight()]. *)
Definition handleMouseLeave (w : World) : World :=
  mkWorld (session w) (tabId w) (Highlighter.clearHighlight (tabId w) (page w)).

(** [handleSelectNode]: select the node and scroll to it. *)
Definition handleSelectNode (node : App.TreeNode) (w : World) : World :=
  mkWorld (App.setSelectedNode (session w) node) (tabId w)
    (Highlighter.scrollToElement (tabId w) (App.path node) (page w)).

(** A key press on the tree panel: the controller's state change, then
    the scroll it asked for. *)
Definition keyDown (key : string) (w : World) : World :=
  let h := App.handleKeyDown (session w) key in
  mkWorld (App.next h) (tabId w)
    match App.scrolledTo h with
    | Some path => Highlighter.scrollToElement (tabId w) path (page w)
    | None => page w
    end.

End Events.

End Panel.

(** ** Vocabulary of the specification *)

Module Spec.

(** The first element of [l] on which [f] finds something. *)
Fixpoint firstSome {A B} (f : A -> option B) (l : list A) : option B :=
  match l with
  | [] => None
  | a :: l' => match f a with Some b => Some b | None => firstSome f l' end
  end.

(** The node reached from [t] by a sequence of child indices. *)
Fixpoint nodeAt (t : App.TreeNode) (pos : list nat) : option App.TreeNode :=
  match pos with
  | [] => Some t
  | i :: pos' =>
      match App.children t !! i with
      | Some c => nodeAt c pos'
      | None => None
      end
  end.

(** The element reached from [e] by a sequence of child indices. *)
Fixpoint elementAt (e : Dom.Element) (pos : list nat) : option Dom.Element :=
  match pos with
  | [] => Some e
  | i :: pos' =>
      match Dom.children e !! i with
      | Some c => elementAt c pos'
      | None => None
      end
  end.

(** All nodes of a tree, in document order. *)
Fixpoint nodes (t : App.TreeNode) : list App.TreeNode :=
  t :: flat_map nodes (App.children t).

(** The ids of the island nodes of a tree, in document order. *)
Definition islandIds (t : App.TreeNode) : list string :=
  map App.id (List.filter App.isAstroIsland (nodes t)).

(** Every element strictly below [e], at any depth. *)
Fixpoint descendants (e : Dom.Element) : list Dom.Element :=
  flat_map (fun c => c :: descendants c) (Dom.children e).

(** For every node strictly below [t], the ids of its ancestors from the
    top down to its parent; [above] are the ids of the ancestors of [t]
    itself. *)
Fixpoint ancestorChains (t : App.TreeNode) (above : list string)
  : list (list string) :=
  let chain := (above ++ [App.id t])%list in
  flat_map (fun c => chain :: ancestorChains c chain) (App.children t).

(** The ancestor chain lies within the expanded set. *)
Definition chainExpanded (expandedIds : gset string) (chain : list string)
  : bool :=
  forallb (fun a => bool_decide (a ∈ expandedIds)) chain.

(** How many of the chains lie within the expanded set. *)
Definition shown (expandedIds : gset string) (chains : list (list string))
  : nat :=
  length (List.filter (chainExpanded expandedIds) chains).

(** Number of nodes below the root whose ancestors are all expanded. *)
Definition shownBelowRoot (t : App.TreeNode) (expandedIds : gset string)
  : nat :=
  shown expandedIds (ancestorChains t []).

(** [i] is the id of a node on the way from [root] down to an island:
    some island sits at a position [pos], and a node with id [i] sits at
    a prefix of [pos]. *)
Definition onIslandPath (root : App.TreeNode) (i : string) : Prop :=
  ∃ pos isl k n,
    nodeAt root pos = Some isl ∧ App.isAstroIsland isl = true ∧
    nodeAt root (take k pos) = Some n ∧ App.id n = i.

(** [autoExpandSet(root)]: the set the session starts with. *)
Definition autoExpandSet (root : App.TreeNode) : gset string :=
  App.collectExpandedNodes root ∅.

(** The loop of [buildTree] over [element.children], from index [i]
    on, as a function of its own. *)
Fixpoint forEachChild (JSON_parse : string -> JS.Completion JS.JSON)
  (l : list Dom.Element) (depth : nat) (path : string) (i : nat)
  (nodeId : nat) : list App.TreeNode * nat :=
  match l with
  | [] => ([], nodeId)
  | child :: l' =>
      let '(k, nodeId1) :=
        App.buildTree JSON_parse child (depth + 1) (App.childPath path i)
          nodeId in
      let '(ks, nodeId2) :=
        forEachChild JSON_parse l' depth path (S i) nodeId1 in
      (k :: ks, nodeId2)
  end.

(** The segments of a structural path: none for the empty path, else
    the pieces between the dots. *)
Definition segments (path : string) : list string :=
  match path with
  | EmptyString => []
  | _ => JS.split path
  end.

(** The path reached from [path] by appending child indices in turn. *)
Definition extendPath (path : string) (pos : list nat) : string :=
  fold_left App.childPath pos path.

(** The part of [s] after its last slash (all of [s] without one). *)
Fixpoint lastPathSegment (s : string) : string :=
  match s with
  | EmptyString => EmptyString
  | String c s' =>
      if Ascii.eqb c "/" && negb (JS.includes s' "/")
      then s'
      else if JS.includes s "/" then lastPathSegment s' else s
  end.

(** The node [buildTree] makes for [element] itself, before its children
    are pushed: [kids] stands for the children built by the loop. *)
Definition shallowNode (JSON_parse : string -> JS.Completion JS.JSON)
  (element : Dom.Element) (depth : nat) (path : string) (nodeId : nat)
  (kids : list App.TreeNode) : App.TreeNode :=
  let tagName := JS.toLowerCase (Dom.tagName element) in
  let isIsland := String.eqb tagName "astro-island" in
  let attrs := Dom.attributes element in
  App.mkTreeNode ("node-" +:+ JS.toString nodeId) tagName isIsland
    (if isIsland then App.componentNameOf JSON_parse attrs else None)
    (if isIsland
     then Some (Dom.orElse (Dom.getAttribute attrs "client") "load")
     else None)
    (if isIsland then App.propsOf JSON_parse attrs else None)
    (if isIsland then App.frameworkOf attrs else None)
    kids depth path.

(** A rectangle as layout produces it: finite, of non-negative size,
    with [right = left + width] and [bottom = top + height]. *)
Definition layoutBox (r : Dom.Rect) : bool :=
  match Dom.top r, Dom.left r, Dom.right r, Dom.bottom r,
        Dom.width r, Dom.height r with
  | JS.Fin t, JS.Fin l, JS.Fin rt, JS.Fin b, JS.Fin w, JS.Fin h =>
      (0 <=? w)%Z && (0 <=? h)%Z && (rt =? l + w)%Z && (b =? t + h)%Z
  | _, _, _, _, _, _ => false
  end.

(** Every element strictly below [e] has a layout rectangle. *)
Definition laidOutBelow (e : Dom.Element) : bool :=
  forallb (fun d => layoutBox (Dom.rect d)) (descendants e).

(** The rectangles of the elements strictly below [e], at any depth,
    that have a positive width and a positive height. *)
Definition sizedBelow (e : Dom.Element) : list Dom.Rect :=
  List.filter Highlighter.sized (map Dom.rect (descendants e)).

(** [a <= b] on finite numbers. *)
Definition le (a b : JS.num) : Prop :=
  match a, b with
  | JS.Fin x, JS.Fin y => (x <= y)%Z
  | _, _ => False
  end.

(** [b] is the union bounding box of the rectangles [rs]: it contains
    each of them, each of its four sides is the side of one of them, and
    its size is the distance between its sides. *)
Definition isUnionOf (b : Dom.Rect) (rs : list Dom.Rect) : Prop :=
  (∀ r, r ∈ rs ->
        le (Dom.left b) (Dom.left r) ∧ le (Dom.top b) (Dom.top r) ∧
        le (Dom.right r) (Dom.right b) ∧ le (Dom.bottom r) (Dom.bottom b)) ∧
  (∃ r, r ∈ rs ∧ Dom.left r = Dom.left b) ∧
  (∃ r, r ∈ rs ∧ Dom.top r = Dom.top b) ∧
  (∃ r, r ∈ rs ∧ Dom.right r = Dom.right b) ∧
  (∃ r, r ∈ rs ∧ Dom.bottom r = Dom.bottom b) ∧
  Dom.width b = JS.num_sub (Dom.right b) (Dom.left b) ∧
  Dom.height b = JS.num_sub (Dom.bottom b) (Dom.top b).

(** One visit of the bounds computation: a sized rectangle widens the
    accumulators, any other leaves them. *)
Definition widen (b : Highlighter.Bounds) (r : Dom.Rect) : Highlighter.Bounds :=
  if Highlighter.sized r then
    Highlighter.mkBounds
      (JS.Math_min (Highlighter.minX b) (Dom.left r))
      (JS.Math_min (Highlighter.minY b) (Dom.top r))
      (JS.Math_max (Highlighter.maxX b) (Dom.right r))
      (JS.Math_max (Highlighter.maxY b) (Dom.bottom r))
  else b.

(** The accumulators before any sized rectangle has been visited. *)
Definition noBounds : Highlighter.Bounds :=
  Highlighter.mkBounds JS.PosInf JS.PosInf JS.NegInf JS.NegInf.

(** The accumulators [b] after the sized rectangles [seen] (at least
    one) have been visited: finite, a box of positive size that contains
    every rectangle of [seen] and whose sides are sides of rectangles of
    [seen]. *)
Definition covers (b : Highlighter.Bounds) (seen : list Dom.Rect) : Prop :=
  ∃ x0 y0 x1 y1 : Z,
    b = Highlighter.mkBounds (JS.Fin x0) (JS.Fin y0) (JS.Fin x1) (JS.Fin y1) ∧
    (x0 < x1)%Z ∧ (y0 < y1)%Z ∧
    (∀ r, r ∈ seen ->
          le (JS.Fin x0) (Dom.left r) ∧ le (JS.Fin y0) (Dom.top r) ∧
          le (Dom.right r) (JS.Fin x1) ∧ le (Dom.bottom r) (JS.Fin y1)) ∧
    (∃ r, r ∈ seen ∧ Dom.left r = JS.Fin x0) ∧
    (∃ r, r ∈ seen ∧ Dom.top r = JS.Fin y0) ∧
    (∃ r, r ∈ seen ∧ Dom.right r = JS.Fin x1) ∧
    (∃ r, r ∈ seen ∧ Dom.bottom r = JS.Fin y1).

(** The element [e] and every element below it, in document order. *)
Definition elements (e : Dom.Element) : list Dom.Element :=
  e :: descendants e.

(** The ids of a tree, in document order. *)
Definition ids (t : App.TreeNode) : list string := map App.id (nodes t).

(** A node by itself, without its children. *)
Definition shallow (n : App.TreeNode) : App.TreeNode := App.withChildren n [].

(** The id the builder gives to its [k]-th node. *)
Definition nodeName (k : nat) : string := "node-" +:+ JS.toString k.

(** Every character of [s] is in the class [[^/]]. *)
Fixpoint noSlash (s : string) : bool :=
  match s with
  | EmptyString => true
  | String c s' => negb (Ascii.eqb c "/") && noSlash s'
  end.

(** Every character of [s] is an ASCII character (code below 128). *)
Fixpoint isAscii (s : string) : bool :=
  match s with
  | EmptyString => true
  | String c s' => (nat_of_ascii c <? 128) && isAscii s'
  end.

End Spec.

(** ** Sample pages and trees *)

Module Samples.

Import JS.

(** The double-quote character. *)
Definition dq : string := String "034"%char EmptyString.

(** The text [{"name":"Counter"}]. *)
Definition counterOpts : string :=
  "{" +:+ dq +:+ "name" +:+ dq +:+ ":" +:+ dq +:+ "Counter" +:+ dq +:+ "}".

(** A host parser restricted to the one document the samples use: every
    other text is rejected. *)
Definition sampleParse (s : string) : Completion JSON :=
  if String.eqb s counterOpts then Return (JObj [("name", JStr "Counter")])
  else Throw.

(** A layout box given by its corner and size. *)
Definition boxAt (t l w h : Z) : Dom.Rect :=
  Dom.mkRect (Fin t) (Fin l) (Fin (l + w)) (Fin (t + h)) (Fin w) (Fin h).

(** A node without hydration metadata. *)
Definition plain (i tag : string) (cs : list App.TreeNode) (d : nat)
  (p : string) : App.TreeNode :=
  App.mkTreeNode i tag false None None None None cs d p.

(** An island node named [Counter]. *)
Definition island (i : string) (cs : list App.TreeNode) (d : nat)
  (p : string) : App.TreeNode :=
  App.mkTreeNode i "astro-island" true (Some (JStr "Counter")) (Some "idle")
    None None cs d p.

(** [<body></body>] *)
Definition emptyBody : App.TreeNode := plain "node-0" "body" [] 0 "".

(** [<body><astro-island></astro-island></body>] *)
Definition bodyWithIsland : App.TreeNode :=
  plain "node-0" "body" [island "node-1" [] 1 "0"] 0 "".

(** [<astro-island><div></div></astro-island>] *)
Definition islandWithDiv : App.TreeNode :=
  island "node-1" [plain "node-2" "div" [] 2 "0.0"] 1 "0".

(** [<astro-island opts="{bad" component-url="/pkg.v2/Counter">]:
    malformed options, and a component URL whose last segment has no
    extension while a directory name has a dot. *)
Definition dottedDirIsland : Dom.Element :=
  Dom.mkElement "ASTRO-ISLAND"
    [("opts", "{bad"); ("component-url", "/pkg.v2/Counter")]
    (boxAt 0 0 0 0) [].

(** [<astro-island opts="{bad" component-url="/src/components/Counter.jsx">] *)
Definition brokenOptsIsland : Dom.Element :=
  Dom.mkElement "ASTRO-ISLAND"
    [("opts", "{bad"); ("component-url", "/src/components/Counter.jsx")]
    (boxAt 0 0 0 0) [].

(** An element without attributes. *)
Definition el (tag : string) (r : Dom.Rect) (cs : list Dom.Element)
  : Dom.Element :=
  Dom.mkElement tag [] r cs.

(** The scenario of the specification: an island of zero size whose one
    child is laid out at top 10, left 5, 100 wide and 40 high. *)
Definition sizedChild : Dom.Element := el "DIV" (boxAt 10 5 100 40) [].

Definition zeroIsland : Dom.Element :=
  Dom.mkElement "ASTRO-ISLAND" [("opts", counterOpts)] (boxAt 0 0 0 0)
    [sizedChild].

Definition islandPage : Highlighter.Page :=
  Highlighter.mkPage (el "BODY" (boxAt 0 0 800 600) [zeroIsland]) None None.

(** A wrapper that is 50 high but 0 wide, around the sized child. *)
Definition flatWrapper : Dom.Element :=
  el "SPAN" (boxAt 0 0 0 50) [sizedChild].

(** An island whose subtree has no size anywhere. *)
Definition hiddenIsland : Dom.Element :=
  el "ASTRO-ISLAND" (boxAt 0 0 0 0) [el "DIV" (boxAt 0 0 0 0) []].

(** A page that shows an overlay over its body, and whose body holds
    the hidden island. *)
Definition highlightedPage : Highlighter.Page :=
  Highlighter.mkPage (el "BODY" (boxAt 0 0 800 600) [hiddenIsland])
    (Some (Highlighter.mkOverlay (boxAt 0 0 800 600)
             (Highlighter.TagLabel "body")))
    None.

(** [<body><div></div></body>] *)
Definition bodyWithDiv : App.TreeNode :=
  plain "node-0" "body" [plain "node-1" "div" [] 1 "0"] 0 "".

(** The body with a div is selected and expanded while the islands-only
    filter is on: nothing passes the filter. *)
Definition filteredOut : App.Session :=
  App.mkSession (Some bodyWithDiv) (Some bodyWithDiv) true ""
    {[ "node-0" ]} false None.

(** The body with a div is selected and expanded, unfiltered. *)
Definition expandedBody : App.Session :=
  App.mkSession (Some bodyWithDiv) (Some bodyWithDiv) false ""
    {[ "node-0" ]} false None.

(** A node whose path [3] leads nowhere in the sample pages. *)
Definition strayNode : App.TreeNode := plain "node-9" "div" [] 1 "3".

(** The panel over the page that shows an overlay. *)
Definition hoverWorld : Panel.World :=
  Panel.mkWorld expandedBody (Some 1) highlightedPage.

(** The page of the specification's builder scenario:
    [<body><astro-island client="idle" opts='{"name":"Counter"}'>]. *)
Definition scenarioBody : Dom.Element :=
  el "BODY" (boxAt 0 0 800 600)
    [Dom.mkElement "ASTRO-ISLAND" [("client", "idle"); ("opts", counterOpts)]
       (boxAt 0 0 0 0) []].

(** The node built for the island of [islandPage]. *)
Definition zeroIslandNode : App.TreeNode :=
  App.mkTreeNode "node-1" "astro-island" true (Some (JStr "Counter"))
    (Some "load") None None [plain "node-2" "div" [] 2 "0.0"] 1 "0".

End Samples.

(** ** Unfolding equations and induction for trees *)

Section TreeInduction.

Variable P : App.TreeNode -> Prop.
Hypothesis step : ∀ n, Forall P (App.children n) -> P n.

Lemma TreeNode_forall_ind : ∀ n, P n.
Proof.
  fix IH 1. intros [i tg isl cn cd pr fw ch d p].
  apply step. simpl.
  revert ch. fix IHl 1. intros [|c ch]; constructor.
  - apply IH.
  - apply IHl.
Qed.

End TreeInduction.

Lemma hasIslandDescendant_eq n :
  App.hasIslandDescendant n =
  App.isAstroIsland n || existsb App.hasIslandDescendant (App.children n).
Proof.
  destruct n as [i tg isl cn cd pr fw ch d p]; simpl.
  destruct isl; [reflexivity|]. simpl.
  induction ch as [|c ch IH]; simpl; [reflexivity|].
  destruct (App.hasIslandDescendant c); simpl; auto.
Qed.

Lemma collectExpandedNodes_eq n r :
  App.collectExpandedNodes n r =
  fold_left (fun r c => if App.hasIslandDescendant c
                        then App.collectExpandedNodes c r else r)
            (App.children n) ({[ App.id n ]} ∪ r).
Proof.
  destruct n as [i tg isl cn cd pr fw ch d p]; simpl.
  generalize ({[ i ]} ∪ r). induction ch as [|c ch IH]; intros r'; simpl;
    [reflexivity | apply IH].
Qed.

Lemma flattenVisibleTree_eq n E r :
  App.flattenVisibleTree n E r =
  if bool_decide (App.id n ∈ E)
  then fold_left (fun r c => App.flattenVisibleTree c E r)
                 (App.children n) (r ++ [n])%list
  else (r ++ [n])%list.
Proof.
  destruct n as [i tg isl cn cd pr fw ch d p]; simpl.
  destruct (bool_decide (i ∈ E)); [|reflexivity].
  generalize (r ++ [App.mkTreeNode i tg isl cn cd pr fw ch d p])%list.
  induction ch as [|c ch' IH]; intros r'; simpl; [reflexivity | apply IH].
Qed.

Lemma findParent_eq root targetId parent :
  App.findParent root targetId parent =
  if String.eqb (App.id root) targetId then parent
  else Spec.firstSome (fun c => App.findParent c targetId (Some root))
                 (App.children root).
Proof.
  destruct root as [i tg isl cn cd pr fw ch d p]; simpl.
  destruct (String.eqb i targetId); [reflexivity|].
  set (root := App.mkTreeNode i tg isl cn cd pr fw ch d p).
  generalize root. clear root. intros root.
  induction ch as [|c ch' IH]; simpl; [reflexivity|].
  destruct (App.findParent c targetId (Some root)); auto.
Qed.

Lemma filter_eq n :
  App.filter n =
  let filteredChildren := omap App.filter (App.children n) in
  if App.isAstroIsland n then Some (App.withChildren n filteredChildren)
  else if 0 <? length filteredChildren
       then Some (App.withChildren n filteredChildren)
       else None.
Proof.
  destruct n as [i tg isl cn cd pr fw ch d p].
  assert (E : (fix mapFilter (l : list App.TreeNode) : list App.TreeNode :=
                 match l with
                 | [] => []
                 | c :: l' => match App.filter c with
                              | Some c' => c' :: mapFilter l'
                              | None => mapFilter l'
                              end
                 end) ch = omap App.filter ch).
  { induction ch as [|c ch' IH]; simpl; [reflexivity|].
    destruct (App.filter c); simpl; rewrite IH; reflexivity. }
  cbn [App.filter App.children App.isAstroIsland]. rewrite E. reflexivity.
Qed.

(** ** Flattening the visible tree *)

Section Flatten.

Variable expandedIds : gset string.

Local Abbreviation shown := (Spec.shown expandedIds).

Lemma ancestorChains_eq t above :
  Spec.ancestorChains t above =
  flat_map (fun c => (above ++ [App.id t])%list
                     :: Spec.ancestorChains c (above ++ [App.id t])%list)
           (App.children t).
Proof. destruct t; reflexivity. Qed.

Lemma chainExpanded_snoc above i :
  Spec.chainExpanded expandedIds (above ++ [i]) =
  Spec.chainExpanded expandedIds above && bool_decide (i ∈ expandedIds).
Proof.
  unfold Spec.chainExpanded. rewrite forallb_app. simpl.
  rewrite andb_true_r. reflexivity.
Qed.

Lemma shown_app l1 l2 : shown (l1 ++ l2) = shown l1 + shown l2.
Proof. unfold shown. rewrite List.filter_app, length_app. reflexivity. Qed.

(** Below a collapsed ancestor nothing is shown. *)
Lemma shown_collapsed t :
  ∀ above, Spec.chainExpanded expandedIds above = false ->
           shown (Spec.ancestorChains t above) = 0.
Proof.
  induction t as [t IH] using TreeNode_forall_ind. intros above Hc.
  rewrite ancestorChains_eq.
  assert (Hc' : Spec.chainExpanded expandedIds (above ++ [App.id t]) = false)
    by (rewrite chainExpanded_snoc, Hc; reflexivity).
  revert Hc'. generalize (above ++ [App.id t])%list. intros chain Hc'.
  induction IH as [|c ch Hh _ IHl]; [reflexivity|].
  simpl. change (?a :: ?l ++ ?r)%list with ((a :: l) ++ r)%list.
  rewrite shown_app, IHl, Nat.add_0_r.
  unfold shown. simpl. rewrite Hc'. apply Hh, Hc'.
Qed.

Lemma flatten_length t :
  ∀ above r, Spec.chainExpanded expandedIds above = true ->
    length (App.flattenVisibleTree t expandedIds r) =
    length r + 1 + shown (Spec.ancestorChains t above).
Proof.
  induction t as [t IH] using TreeNode_forall_ind. intros above r Hc.
  rewrite flattenVisibleTree_eq, ancestorChains_eq.
  pose proof (chainExpanded_snoc above (App.id t)) as Hs. rewrite Hc in Hs.
  simpl in Hs. revert Hs.
  generalize (above ++ [App.id t])%list. intros chain Hs.
  destruct (bool_decide (App.id t ∈ expandedIds)).
  - assert (G : ∀ r', length (fold_left
                 (fun r c => App.flattenVisibleTree c expandedIds r)
                 (App.children t) r') =
               length r' +
               shown (flat_map (fun c => chain :: Spec.ancestorChains c chain)
                               (App.children t))).
    { induction IH as [|c ch Hh _ IHl]; intros r'; simpl.
      - unfold shown. simpl. lia.
      - rewrite IHl, (Hh chain _ Hs).
        change (?a :: ?l ++ ?rr)%list with ((a :: l) ++ rr)%list.
        rewrite shown_app. unfold shown at 3. simpl. rewrite Hs. simpl.
        fold (shown (Spec.ancestorChains c chain)). lia. }
    rewrite G, length_app. simpl. lia.
  - rewrite length_app. simpl.
    assert (G : shown (flat_map (fun c => chain :: Spec.ancestorChains c chain)
                                (App.children t)) = 0).
    { clear IH. induction (App.children t) as [|c ch IHl]; [reflexivity|].
      simpl. change (?a :: ?l ++ ?rr)%list with ((a :: l) ++ rr)%list.
      rewrite shown_app, IHl, Nat.add_0_r. unfold shown. simpl. rewrite Hs.
      apply shown_collapsed, Hs. }
    rewrite G. lia.
Qed.

End Flatten.

(** C5.  For every tree and every set of expanded ids, the flattened
    visible list has one entry for the root plus one entry for each node
    below the root all of whose ancestors (the node itself excluded) are
    in the expanded set. *)
Theorem flattenVisible_length (t : App.TreeNode) (expandedIds : gset string) :
  length (App.flattenVisibleTree t expandedIds []) =
  1 + Spec.shownBelowRoot t expandedIds.
Proof.
  unfold Spec.shownBelowRoot.
  rewrite (flatten_length expandedIds t [] []); [simpl; lia | reflexivity].
Qed.

(** ** The auto-expand set *)

Lemma nodeAt_child t j c pos :
  App.children t !! j = Some c -> Spec.nodeAt t (j :: pos) = Spec.nodeAt c pos.
Proof. intros H. simpl. rewrite H. reflexivity. Qed.

(** A node that answers [hasIslandDescendant] has an island at some
    position at or below it. *)
Lemma hasIslandDescendant_position n :
  App.hasIslandDescendant n = true ->
  ∃ pos isl, Spec.nodeAt n pos = Some isl ∧ App.isAstroIsland isl = true.
Proof.
  induction n as [n IH] using TreeNode_forall_ind.
  rewrite hasIslandDescendant_eq. intros H.
  apply orb_true_iff in H as [H|H].
  - exists [], n. split; [reflexivity | exact H].
  - apply existsb_exists in H as (c & Hin & Hc).
    rewrite Forall_forall in IH. apply list_elem_of_In in Hin.
    destruct (IH c Hin Hc) as (pos & isl & Hp & Hi).
    apply list_elem_of_lookup in Hin as [j Hj].
    exists (j :: pos), isl. split; [|exact Hi].
    rewrite (nodeAt_child _ _ _ _ Hj). exact Hp.
Qed.

Lemma position_hasIslandDescendant pos :
  ∀ n isl, Spec.nodeAt n pos = Some isl -> App.isAstroIsland isl = true ->
           App.hasIslandDescendant n = true.
Proof.
  induction pos as [|j pos IH]; intros n isl Hp Hi;
    rewrite hasIslandDescendant_eq; simpl in Hp.
  - injection Hp as ->. rewrite Hi. reflexivity.
  - destruct (App.children n !! j) as [c|] eqn:Hj; [|discriminate].
    apply orb_true_iff. right. apply existsb_exists. exists c. split.
    + apply list_elem_of_In, list_elem_of_lookup. eauto.
    + eapply IH; eauto.
Qed.

Lemma onIslandPath_self n :
  App.hasIslandDescendant n = true -> Spec.onIslandPath n (App.id n).
Proof.
  intros H. destruct (hasIslandDescendant_position n H) as (pos & isl & Hp & Hi).
  exists pos, isl, 0, n. rewrite take_0. auto.
Qed.

Lemma onIslandPath_child n j c i :
  App.children n !! j = Some c -> Spec.onIslandPath c i -> Spec.onIslandPath n i.
Proof.
  intros Hj (pos & isl & k & m & Hp & Hi & Hk & Hm).
  exists (j :: pos), isl, (S k), m. simpl. rewrite Hj. auto.
Qed.

Lemma onIslandPath_hasIslandDescendant n i :
  Spec.onIslandPath n i -> App.hasIslandDescendant n = true.
Proof.
  intros (pos & isl & _ & _ & Hp & Hi & _). eapply position_hasIslandDescendant; eauto.
Qed.

(** What the loop over the children adds to the set. *)
Lemma collect_children_elem (ch : list App.TreeNode) :
  Forall (fun c => ∀ r i, App.hasIslandDescendant c = true ->
                          i ∈ App.collectExpandedNodes c r ->
                          i ∈ r ∨ Spec.onIslandPath c i) ch ->
  ∀ (r : gset string) i,
    i ∈ fold_left (fun r c => if App.hasIslandDescendant c
                              then App.collectExpandedNodes c r else r) ch r ->
    i ∈ r ∨ ∃ j c, ch !! j = Some c ∧ Spec.onIslandPath c i.
Proof.
  induction 1 as [|c ch Hc _ IH]; intros r i Hi; simpl in Hi; [auto|].
  apply IH in Hi as [Hi | (j & c' & Hj & Hp)].
  - destruct (App.hasIslandDescendant c) eqn:E; [|auto].
    apply (Hc _ _ eq_refl) in Hi as [Hi|Hi]; [auto|].
    right. exists 0, c. auto.
  - right. exists (S j), c'. auto.
Qed.

Lemma collect_elem n :
  ∀ (r : gset string) i,
    App.hasIslandDescendant n = true ->
    i ∈ App.collectExpandedNodes n r -> i ∈ r ∨ Spec.onIslandPath n i.
Proof.
  induction n as [n IH] using TreeNode_forall_ind. intros r i Hn Hi.
  rewrite collectExpandedNodes_eq in Hi.
  apply (collect_children_elem _ IH) in Hi as [Hi | (j & c & Hj & Hp)].
  - apply elem_of_union in Hi as [Hi|Hi]; [|auto].
    apply elem_of_singleton in Hi as ->. right. apply onIslandPath_self, Hn.
  - right. eapply onIslandPath_child; eauto.
Qed.

(** C6, as the code has it.  Every id in the auto-expand set is the id
    of a node on the way from the root to an island, except that the
    root's own id is in the set also when the tree has no island. *)
Theorem autoExpandSet_on_island_path (root : App.TreeNode) (i : string) :
  i ∈ Spec.autoExpandSet root ->
  Spec.onIslandPath root i ∨
  (i = App.id root ∧ App.hasIslandDescendant root = false).
Proof.
  unfold Spec.autoExpandSet. intros Hi.
  destruct (App.hasIslandDescendant root) eqn:E.
  - apply (collect_elem _ _ _ E) in Hi as [Hi|Hi]; [|auto].
    by apply not_elem_of_empty in Hi.
  - rewrite collectExpandedNodes_eq in Hi.
    rewrite hasIslandDescendant_eq in E. apply orb_false_iff in E as [_ E].
    assert (G : ∀ ch (r : gset string),
              existsb App.hasIslandDescendant ch = false ->
              fold_left (fun r c => if App.hasIslandDescendant c
                                    then App.collectExpandedNodes c r else r)
                        ch r = r).
    { induction ch as [|c ch IHl]; intros r Hn; simpl in *; [reflexivity|].
      apply orb_false_iff in Hn as [-> Hn]. apply IHl, Hn. }
    rewrite (G _ _ E) in Hi. right. split; [|reflexivity].
    apply elem_of_union in Hi as [Hi|Hi]; [|by apply not_elem_of_empty in Hi].
    by apply elem_of_singleton in Hi.
Qed.

(** Witness for C6: the island of a page whose body holds one island. *)
Lemma autoExpandSet_on_island_path_witness :
  "node-1" ∈ Spec.autoExpandSet Samples.bodyWithIsland ∧
  (Spec.onIslandPath Samples.bodyWithIsland "node-1" ∨
   ("node-1" = App.id Samples.bodyWithIsland ∧
    App.hasIslandDescendant Samples.bodyWithIsland = false)).
Proof.
  assert (H : "node-1" ∈ Spec.autoExpandSet Samples.bodyWithIsland)
    by (apply (bool_decide_unpack _); vm_compute; exact I).
  split; [exact H|].
  apply (autoExpandSet_on_island_path Samples.bodyWithIsland "node-1" H).
Defined.

(** C6 as stated fails on a page without islands: the root's id is in
    the set although no island exists to lead to. *)
Lemma autoExpandSet_root_without_island :
  "node-0" ∈ Spec.autoExpandSet Samples.emptyBody ∧
  ¬ Spec.onIslandPath Samples.emptyBody "node-0".
Proof.
  split.
  - apply (bool_decide_unpack _). vm_compute. exact I.
  - intros H. apply onIslandPath_hasIslandDescendant in H. discriminate H.
Qed.

(** ** The islands-only filter *)

Lemma nodes_eq t : Spec.nodes t = t :: flat_map Spec.nodes (App.children t).
Proof. destruct t; reflexivity. Qed.

Lemma islandIds_eq t :
  Spec.islandIds t =
  ((if App.isAstroIsland t then [App.id t] else [])
   ++ flat_map Spec.islandIds (App.children t))%list.
Proof.
  unfold Spec.islandIds. rewrite nodes_eq. simpl.
  assert (G : ∀ ch, map App.id (List.filter App.isAstroIsland
                                  (flat_map Spec.nodes ch)) =
                    flat_map (fun t => map App.id (List.filter App.isAstroIsland
                                                     (Spec.nodes t))) ch).
  { induction ch as [|c ch IH]; simpl; [reflexivity|].
    rewrite List.filter_app, map_app, IH. reflexivity. }
  destruct (App.isAstroIsland t); simpl; rewrite G; reflexivity.
Qed.

Lemma omap_filter_nil (ch : list App.TreeNode) :
  omap App.filter ch = [] ↔ Forall (fun c => App.filter c = None) ch.
Proof.
  induction ch as [|c ch IH]; simpl.
  - split; [constructor | reflexivity].
  - destruct (App.filter c) eqn:E; simpl.
    + split; [discriminate | intros H; inversion H; congruence].
    + rewrite IH. split; [by constructor | by inversion 1].
Qed.

(** A node is dropped exactly when no island sits at or below it. *)
Lemma filter_None n :
  App.filter n = None ↔ App.hasIslandDescendant n = false.
Proof.
  induction n as [n IH] using TreeNode_forall_ind.
  rewrite filter_eq, hasIslandDescendant_eq. cbv zeta.
  assert (G : omap App.filter (App.children n) = [] ↔
              existsb App.hasIslandDescendant (App.children n) = false).
  { rewrite omap_filter_nil. induction IH as [|c ch Hc _ IHl]; simpl.
    - split; [reflexivity | constructor].
    - rewrite orb_false_iff, <- IHl, <- Hc.
      split; [by inversion 1 | by intros []; constructor]. }
  destruct (App.isAstroIsland n); simpl; [split; discriminate|].
  rewrite <- G.
  destruct (omap App.filter (App.children n)); simpl;
    split; (reflexivity || discriminate).
Qed.

Lemma islandIds_without_island n :
  App.hasIslandDescendant n = false -> Spec.islandIds n = [].
Proof.
  induction n as [n IH] using TreeNode_forall_ind.
  rewrite hasIslandDescendant_eq, islandIds_eq, orb_false_iff.
  intros [-> H]. simpl.
  induction IH as [|c ch Hc _ IHl]; simpl in *; [reflexivity|].
  apply orb_false_iff in H as [H1 H2]. rewrite (Hc H1), (IHl H2). reflexivity.
Qed.

(** Every island of the tree is still there after filtering, in the
    same order. *)
Lemma filter_islandIds n :
  ∀ n', App.filter n = Some n' -> Spec.islandIds n' = Spec.islandIds n.
Proof.
  induction n as [n IH] using TreeNode_forall_ind. intros n' H.
  assert (E : n' = App.withChildren n (omap App.filter (App.children n))).
  { rewrite filter_eq in H. cbv zeta in H.
    destruct (App.isAstroIsland n); [congruence|].
    destruct (0 <? _); congruence. }
  subst n'. rewrite (islandIds_eq n), islandIds_eq. simpl. f_equal.
  clear H. induction IH as [|c ch Hc _ IHl]; simpl; [reflexivity|].
  destruct (App.filter c) as [c'|] eqn:Ec; simpl.
  - rewrite (Hc c' eq_refl). f_equal. exact IHl.
  - apply filter_None in Ec. rewrite (islandIds_without_island c Ec). exact IHl.
Qed.

(** C1, as the code has it.  [filter] returns a structural copy: a kept
    node has its own fields and, as children, the surviving filtered
    copies of its children.  An island node is always kept (its children
    are filtered like any others); a node that is not an island is kept
    iff at least one filtered child survives; a node is dropped iff no
    island sits at or below it, the root included; and every island of
    the tree is retained. *)
Theorem filter_islands_only (t : App.TreeNode) :
  (App.filter t = None ↔ App.hasIslandDescendant t = false) ∧
  (∀ t', App.filter t = Some t' ->
         t' = App.withChildren t (omap App.filter (App.children t)) ∧
         Spec.islandIds t' = Spec.islandIds t) ∧
  (App.isAstroIsland t = true -> is_Some (App.filter t)) ∧
  (App.isAstroIsland t = false ->
   (is_Some (App.filter t) ↔ omap App.filter (App.children t) ≠ [])).
Proof.
  split; [apply filter_None|]. split; [|split].
  - intros t' H. split; [|by apply filter_islandIds].
    rewrite filter_eq in H. cbv zeta in H.
    destruct (App.isAstroIsland t); [congruence|].
    destruct (0 <? _); congruence.
  - intros H. rewrite filter_eq, H. eauto.
  - intros H. rewrite filter_eq, H. cbv zeta.
    destruct (omap App.filter (App.children t)); simpl.
    + split; [by intros [? ?] | by intros []].
    + split; [discriminate | eauto].
Qed.

(** C1 as stated fails below an island: the island is kept, but its
    child without islands is pruned, so the original subtree is not
    retained verbatim. *)
Lemma filter_prunes_below_island :
  App.filter Samples.islandWithDiv = Some (Samples.island "node-1" [] 1 "0") ∧
  App.filter Samples.islandWithDiv ≠ Some Samples.islandWithDiv.
Proof. split; [reflexivity | discriminate]. Qed.

(** ** Strings: paths, indices and substrings *)

Lemma split_cons s : ∃ h t, JS.split s = h :: t.
Proof.
  induction s as [|c s (h & t & IH)]; simpl; [eauto|].
  destruct (Ascii.eqb c "."); [eauto|]. rewrite IH. eauto.
Qed.

Lemma split_app_dot a b :
  JS.split (a +:+ "." +:+ b) = (JS.split a ++ JS.split b)%list.
Proof.
  induction a as [|c a IH]; simpl; [reflexivity|].
  destruct (Ascii.eqb c "."); [rewrite IH; reflexivity|].
  rewrite IH. destruct (split_cons a) as (h & t & ->). reflexivity.
Qed.

Lemma split_noDot s : App.noDot s = true -> JS.split s = [s].
Proof.
  induction s as [|c s IH]; simpl; [reflexivity|].
  intros H. apply andb_true_iff in H as [Hc Hs].
  apply negb_true_iff in Hc. rewrite Hc, (IH Hs). reflexivity.
Qed.

Lemma string_of_uint_noDot d : App.noDot (NilEmpty.string_of_uint d) = true.
Proof. induction d; simpl; auto. Qed.

Lemma toString_noDot i : App.noDot (JS.toString i) = true.
Proof. apply string_of_uint_noDot. Qed.

Lemma Number_toString i : JS.Number (JS.toString i) = Some i.
Proof.
  unfold JS.Number, JS.toString.
  rewrite NilEmpty.usu, DecimalNat.Unsigned.of_to.
  destruct (NilEmpty.string_of_uint (Nat.to_uint i)) eqn:E; [|reflexivity].
  pose proof (NilEmpty.usu (Nat.to_uint i)) as U. rewrite E in U. simpl in U.
  pose proof (DecimalNat.Unsigned.of_to i) as O.
  injection U as U. rewrite <- U in O. simpl in O. subst i. reflexivity.
Qed.

Lemma toString_nonempty i : JS.toString i ≠ EmptyString.
Proof.
  intros E. pose proof (Number_toString i) as N. rewrite E in N.
  simpl in N. injection N as <-. discriminate E.
Qed.

Lemma childPath_nonempty p i : App.childPath p i ≠ EmptyString.
Proof.
  destruct p; simpl; [apply toString_nonempty | discriminate].
Qed.

(** Appending a child index adds exactly one segment. *)
Lemma segments_childPath p i :
  Spec.segments (App.childPath p i) = (Spec.segments p ++ [JS.toString i])%list.
Proof.
  destruct p as [|c p].
  - simpl. pose proof (toString_nonempty i).
    unfold Spec.segments. destruct (JS.toString i) eqn:E; [done|].
    rewrite <- E. apply split_noDot, toString_noDot.
  - unfold App.childPath, Spec.segments.
    change (String c p +:+ "." +:+ JS.toString i)
      with (String c (p +:+ "." +:+ JS.toString i)).
    cbv iota. change (String c (p +:+ "." +:+ JS.toString i))
      with (String c p +:+ "." +:+ JS.toString i).
    rewrite split_app_dot, (split_noDot _ (toString_noDot i)). reflexivity.
Qed.

Lemma segments_extendPath pos :
  ∀ p, Spec.segments (Spec.extendPath p pos) =
       (Spec.segments p ++ map JS.toString pos)%list.
Proof.
  induction pos as [|i pos IH]; intros p; simpl.
  - rewrite app_nil_r. reflexivity.
  - unfold Spec.extendPath in *. simpl. rewrite IH, segments_childPath.
    rewrite <- app_assoc. reflexivity.
Qed.

Lemma extendPath_snoc p pos i :
  Spec.extendPath p (pos ++ [i]) = App.childPath (Spec.extendPath p pos) i.
Proof. unfold Spec.extendPath. rewrite fold_left_app. reflexivity. Qed.

(** A text that contains [preact] contains [react]. *)
Lemma includes_preact_react s :
  JS.includes s "preact" = true -> JS.includes s "react" = true.
Proof.
  induction s as [|c s IH]; cbn [JS.includes JS.startsWith]; [discriminate|].
  intros H. apply orb_true_iff in H as [H|H].
  - apply andb_true_iff in H as [_ H].
    apply orb_true_iff. right.
    destruct s as [|c' s]; [discriminate|]. cbn [JS.includes].
    apply orb_true_iff. left. exact H.
  - apply orb_true_iff. right. apply IH, H.
Qed.

(** ** The tree builder *)

Section BuilderFacts.

Variable JSON_parse : string -> JS.Completion JS.JSON.

Local Abbreviation buildTree := (App.buildTree JSON_parse).
Local Abbreviation forEachChild := (Spec.forEachChild JSON_parse).

Lemma buildTree_eq e d p n :
  buildTree e d p n =
  (Spec.shallowNode JSON_parse e d p n
     (fst (forEachChild (Dom.children e) d p 0 (S n))),
   snd (forEachChild (Dom.children e) d p 0 (S n))).
Proof.
  destruct e as [tg attrs r ch].
  assert (E : ∀ l i m,
    (fix forEach (l : list Dom.Element) (i nodeId : nat) {struct l}
       : list App.TreeNode * nat :=
       match l with
       | [] => ([], nodeId)
       | child :: l' =>
           let '(k, nodeId1) :=
             buildTree child (d + 1) (App.childPath p i) nodeId in
           let '(ks, nodeId2) := forEach l' (S i) nodeId1 in
           (k :: ks, nodeId2)
       end) l i m = forEachChild l d p i m).
  { induction l as [|c l IH]; intros i m; simpl; [reflexivity|].
    destruct (buildTree c (d + 1) (App.childPath p i) m) as [k m1].
    rewrite IH. reflexivity. }
  cbn [App.buildTree Dom.children Dom.tagName Dom.attributes].
  rewrite E. destruct (forEachChild ch d p 0 (S n)) as [kids n'].
  reflexivity.
Qed.

Lemma buildTree_path e d p n : App.path (fst (buildTree e d p n)) = p.
Proof. rewrite buildTree_eq. reflexivity. Qed.

Lemma buildTree_depth e d p n : App.depth (fst (buildTree e d p n)) = d.
Proof. rewrite buildTree_eq. reflexivity. Qed.

Lemma buildTree_children e d p n :
  App.children (fst (buildTree e d p n)) =
  fst (forEachChild (Dom.children e) d p 0 (S n)).
Proof. rewrite buildTree_eq. reflexivity. Qed.

(** The [j]-th node the loop builds comes from the [j]-th child element,
    one level down, under the path extended by its index. *)
Lemma forEachChild_lookup l d p :
  ∀ i n j k,
    fst (forEachChild l d p i n) !! j = Some k ->
    ∃ e m, l !! j = Some e ∧
           k = fst (buildTree e (d + 1) (App.childPath p (i + j)) m).
Proof.
  induction l as [|c l IH]; intros i n j k H; simpl in H; [done|].
  destruct (buildTree c (d + 1) (App.childPath p i) n) as [k0 n1] eqn:E.
  destruct (forEachChild l d p (S i) n1) as [ks n2] eqn:F.
  simpl in H. destruct j as [|j]; simpl in *.
  - injection H as <-. exists c, n. rewrite Nat.add_0_r, E. auto.
  - specialize (IH (S i) n1 j k). rewrite F in IH. simpl in IH.
    destruct (IH H) as (e & m & He & Hk). exists e, m.
    replace (i + S j) with (S i + j) by lia. auto.
Qed.

(** The node at a position of the built tree is the node built from the
    element at the same position of the page. *)
Lemma buildTree_nodeAt pos :
  ∀ e d p n node,
    Spec.nodeAt (fst (buildTree e d p n)) pos = Some node ->
    ∃ e' m, Spec.elementAt e pos = Some e' ∧
            node = fst (buildTree e' (d + length pos) (Spec.extendPath p pos) m).
Proof.
  induction pos as [|i pos IH]; intros e d p n node H; simpl in H.
  - injection H as <-. exists e, n. rewrite Nat.add_0_r. auto.
  - rewrite buildTree_children in H.
    destruct (fst (forEachChild (Dom.children e) d p 0 (S n)) !! i)
      as [k|] eqn:Hk; [|done].
    apply forEachChild_lookup in Hk as (c & m & Hc & ->).
    apply IH in H as (e' & m' & He' & ->).
    exists e', m'. simpl. rewrite Hc.
    replace (d + S (length pos)) with (d + 1 + length pos) by lia. auto.
Qed.

Lemma nodeAt_app pos q :
  ∀ t, Spec.nodeAt t (pos ++ q) =
       match Spec.nodeAt t pos with
       | Some n => Spec.nodeAt n q
       | None => None
       end.
Proof.
  induction pos as [|i pos IH]; intros t; simpl; [reflexivity|].
  destruct (App.children t !! i); [apply IH | reflexivity].
Qed.

Lemma resolvePath_eq body p :
  Highlighter.resolvePath body p =
  fold_left Highlighter.descend (map JS.Number (Spec.segments p)) (Some body).
Proof. destruct p; reflexivity. Qed.

Lemma descend_indices pos :
  ∀ e, fold_left Highlighter.descend (map JS.Number (map JS.toString pos)) e =
       match e with
       | Some e' => Spec.elementAt e' pos
       | None => None
       end.
Proof.
  induction pos as [|i pos IH]; intros e; simpl.
  - destruct e; reflexivity.
  - rewrite IH, Number_toString. destruct e as [e'|]; simpl; [|reflexivity].
    destruct (Dom.children e' !! i); reflexivity.
Qed.

(** Walking the path of a position from the body ends at that position. *)
Lemma resolvePath_extendPath body pos :
  Highlighter.resolvePath body (Spec.extendPath "" pos) =
  Spec.elementAt body pos.
Proof.
  rewrite resolvePath_eq, segments_extendPath. simpl. apply descend_indices.
Qed.

Lemma frameworkOf_not_preact attrs : App.frameworkOf attrs ≠ Some "Preact".
Proof.
  unfold App.frameworkOf.
  set (renderer := Dom.orElse (Dom.getAttribute attrs "renderer-url") "").
  destruct (JS.includes renderer "react") eqn:R; simpl; [discriminate|].
  destruct (JS.includes renderer "client.C"); [discriminate|].
  destruct (JS.includes renderer "vue"); [discriminate|].
  destruct (JS.includes renderer "svelte"); [discriminate|].
  destruct (JS.includes renderer "solid"); [discriminate|].
  destruct (JS.includes renderer "preact") eqn:Q; [|discriminate].
  apply includes_preact_react in Q. congruence.
Qed.

(** With options that do not parse, the name comes from the component
    URL through the fallback pattern, or is the placeholder. *)
Lemma malformed_opts_name e d p n o :
  JS.toLowerCase (Dom.tagName e) = "astro-island" ->
  Dom.getAttribute (Dom.attributes e) "opts" = Some o ->
  JSON_parse o = JS.Throw ->
  App.componentName (fst (buildTree e d p n)) =
  Some (JS.JStr
          (Dom.orElse
             (App.matchUrl
                (Dom.orElse (Dom.getAttribute (Dom.attributes e) "component-url")
                            ""))
             "Island")).
Proof.
  intros Ht Ho Hp. rewrite buildTree_eq. unfold Spec.shallowNode. simpl.
  rewrite Ht. simpl. unfold App.componentNameOf, App.optsName.
  rewrite Ho. destruct o as [|c o]; [reflexivity|]. rewrite Hp. reflexivity.
Qed.

End BuilderFacts.

(** C3.  In the tree of one traversal the root has the empty path and
    depth 0; every node's depth is the number of segments of its path;
    and the path of every child is its parent's path with the child's
    zero-based index appended (one more segment, one more level). *)
Theorem buildTree_path_depth
  (JSON_parse : string -> JS.Completion JS.JSON) (body : Dom.Element) :
  let t := App.buildTreeInPage JSON_parse body in
  App.path t = "" ∧ App.depth t = 0 ∧
  (∀ pos n, Spec.nodeAt t pos = Some n ->
            App.depth n = length (Spec.segments (App.path n))) ∧
  (∀ pos i parent child,
     Spec.nodeAt t pos = Some parent ->
     App.children parent !! i = Some child ->
     App.path child = App.childPath (App.path parent) i ∧
     Spec.segments (App.path child) =
       (Spec.segments (App.path parent) ++ [JS.toString i])%list ∧
     App.depth child = S (App.depth parent)).
Proof.
  unfold App.buildTreeInPage. cbv zeta.
  split; [apply buildTree_path|]. split; [apply buildTree_depth|]. split.
  - intros pos n H. apply buildTree_nodeAt in H as (e & m & _ & ->).
    rewrite buildTree_depth, buildTree_path, segments_extendPath.
    simpl. rewrite length_map. reflexivity.
  - intros pos i parent child Hp Hc.
    assert (Hq : Spec.nodeAt (fst (App.buildTree JSON_parse body 0 "" 0))
                   (pos ++ [i]) = Some child).
    { rewrite nodeAt_app, Hp. simpl. rewrite Hc. reflexivity. }
    apply buildTree_nodeAt in Hp as (e & m & _ & ->).
    apply buildTree_nodeAt in Hq as (e' & m' & _ & ->).
    rewrite !buildTree_path, !buildTree_depth, extendPath_snoc.
    rewrite segments_childPath, length_app. simpl.
    split; [reflexivity|]. split; [reflexivity | lia].
Qed.

(** C4.  Round trip: the node at any position of the built tree was
    built from the element at the same position of the page, and walking
    the node's own path from the body, index by index, arrives at that
    element. *)
Theorem path_round_trip
  (JSON_parse : string -> JS.Completion JS.JSON) (body : Dom.Element)
  (pos : list nat) (n : App.TreeNode) :
  Spec.nodeAt (App.buildTreeInPage JSON_parse body) pos = Some n ->
  ∃ e m, Spec.elementAt body pos = Some e ∧
         n = fst (App.buildTree JSON_parse e (length pos) (App.path n) m) ∧
         Highlighter.resolvePath body (App.path n) = Some e.
Proof.
  unfold App.buildTreeInPage. intros H.
  apply buildTree_nodeAt in H as (e & m & He & ->).
  exists e, m. rewrite buildTree_path, resolvePath_extendPath. auto.
Qed.

(** Witness for C4: the island of the sample page, at position 0. *)
Lemma path_round_trip_witness :
  Spec.nodeAt
    (App.buildTreeInPage Samples.sampleParse
       (Highlighter.body Samples.islandPage)) [0]
    = Some Samples.zeroIslandNode ∧
  ∃ e m,
    Spec.elementAt (Highlighter.body Samples.islandPage) [0] = Some e ∧
    Samples.zeroIslandNode =
      fst (App.buildTree Samples.sampleParse e 1
             (App.path Samples.zeroIslandNode) m) ∧
    Highlighter.resolvePath (Highlighter.body Samples.islandPage)
      (App.path Samples.zeroIslandNode) = Some e.
Proof.
  split; [reflexivity|].
  apply (path_round_trip Samples.sampleParse
           (Highlighter.body Samples.islandPage) [0] Samples.zeroIslandNode).
  reflexivity.
Defined.

(** The builder scenario of the specification. *)
Example buildTree_scenario :
  App.buildTreeInPage Samples.sampleParse Samples.scenarioBody
  = Samples.bodyWithIsland.
Proof. reflexivity. Qed.

(** C10.  No element is ever classified as [Preact]: a renderer URL that
    contains [preact] contains [react], and the React test comes first. *)
Theorem framework_never_Preact
  (JSON_parse : string -> JS.Completion JS.JSON) :
  (∀ renderer, JS.includes renderer "preact" = true ->
               JS.includes renderer "react" = true) ∧
  (∀ e d p n,
     App.framework (fst (App.buildTree JSON_parse e d p n)) ≠ Some "Preact") ∧
  (∀ body pos node,
     Spec.nodeAt (App.buildTreeInPage JSON_parse body) pos = Some node ->
     App.framework node ≠ Some "Preact").
Proof.
  assert (G : ∀ e d p n,
    App.framework (fst (App.buildTree JSON_parse e d p n)) ≠ Some "Preact").
  { intros e d p n. rewrite buildTree_eq. unfold Spec.shallowNode. simpl.
    destruct (String.eqb _ _); [apply frameworkOf_not_preact | discriminate]. }
  split; [apply includes_preact_react|]. split; [exact G|].
  intros body pos node H. unfold App.buildTreeInPage in H.
  apply buildTree_nodeAt in H as (e & m & _ & ->). apply G.
Qed.

(** C8 on a component URL with a dotted directory.  The options do not
    parse and the traversal goes on, but the name is taken from the
    directory [pkg.v2], not from the last segment [Counter]: the
    extension part of the pattern, [[^.]+], runs across the slash. *)
Theorem componentName_dotted_directory :
  Samples.sampleParse "{bad" = JS.Throw ∧
  App.componentName
    (App.buildTreeInPage Samples.sampleParse Samples.dottedDirIsland) =
    Some (JS.JStr "pkg") ∧
  Spec.lastPathSegment "/pkg.v2/Counter" = "Counter".
Proof. vm_compute. auto. Qed.

(** With a file name that has an extension the fallback gives the stem. *)
Example componentName_from_file_name :
  App.componentName
    (App.buildTreeInPage Samples.sampleParse Samples.brokenOptsIsland) =
  Some (JS.JStr "Counter").
Proof. reflexivity. Qed.

(** Without a usable URL the placeholder is used. *)
Example componentName_placeholder :
  App.componentName
    (App.buildTreeInPage Samples.sampleParse
       (Dom.mkElement "ASTRO-ISLAND" [("opts", "{bad")] (Samples.boxAt 0 0 0 0) []))
  = Some (JS.JStr "Island").
Proof. reflexivity. Qed.

(** ** Bounds of a subtree *)

Section ElementInduction.

Variable P : Dom.Element -> Prop.
Hypothesis step : ∀ e, Forall P (Dom.children e) -> P e.

Lemma Element_forall_ind : ∀ e, P e.
Proof.
  fix IH 1. intros [tg attrs r ch]. apply step. simpl.
  revert ch. fix IHl 1. intros [|c ch]; constructor.
  - apply IH.
  - apply IHl.
Qed.

End ElementInduction.

Lemma descendants_eq e :
  Spec.descendants e =
  flat_map (fun c => c :: Spec.descendants c) (Dom.children e).
Proof. destruct e; reflexivity. Qed.

Lemma calculateBounds_eq el b :
  Highlighter.calculateBounds el b =
  fold_left (fun b c => Highlighter.calculateBounds c b) (Dom.children el)
            (Spec.widen b (Dom.rect el)).
Proof.
  destruct el as [tg attrs r ch]. cbn [Highlighter.calculateBounds].
  unfold Spec.widen. cbn [Dom.rect Dom.children].
  generalize (if Highlighter.sized r
              then Highlighter.mkBounds
                     (JS.Math_min (Highlighter.minX b) (Dom.left r))
                     (JS.Math_min (Highlighter.minY b) (Dom.top r))
                     (JS.Math_max (Highlighter.maxX b) (Dom.right r))
                     (JS.Math_max (Highlighter.maxY b) (Dom.bottom r))
              else b).
  induction ch as [|c ch IH]; intros b'; simpl; [reflexivity | apply IH].
Qed.

(** The recursion visits the element and then everything below it, at
    every depth, in document order. *)
Lemma calculateBounds_visits el :
  ∀ b, Highlighter.calculateBounds el b =
       fold_left Spec.widen (map Dom.rect (el :: Spec.descendants el)) b.
Proof.
  induction el as [el IH] using Element_forall_ind. intros b.
  rewrite calculateBounds_eq, descendants_eq. simpl.
  generalize (Spec.widen b (Dom.rect el)).
  induction IH as [|c ch Hc _ IHl]; intros b'; simpl; [reflexivity|].
  rewrite Hc, IHl. simpl. rewrite map_app, fold_left_app. reflexivity.
Qed.

Lemma layoutBox_inv r :
  Spec.layoutBox r = true ->
  ∃ t l w h : Z, (0 <= w)%Z ∧ (0 <= h)%Z ∧
    r = Dom.mkRect (JS.Fin t) (JS.Fin l) (JS.Fin (l + w)) (JS.Fin (t + h))
                   (JS.Fin w) (JS.Fin h).
Proof.
  destruct r as [t l rt b w h]. unfold Spec.layoutBox. simpl.
  destruct t as [| |t|], l as [| |l|], rt as [| |rt|], b as [| |b|],
           w as [| |w|], h as [| |h|]; try discriminate.
  intros H. repeat (apply andb_true_iff in H as [H ?]).
  exists t, l, w, h. repeat split; try lia.
  f_equal; f_equal; lia.
Qed.

Lemma widen_skip b r : Highlighter.sized r = false -> Spec.widen b r = b.
Proof. unfold Spec.widen. intros ->. reflexivity. Qed.

Lemma widen_first r :
  Spec.layoutBox r = true -> Highlighter.sized r = true ->
  Spec.covers (Spec.widen Spec.noBounds r) [r].
Proof.
  intros L S. apply layoutBox_inv in L as (t & l & w & h & Hw & Hh & ->).
  unfold Spec.widen. rewrite S. unfold Highlighter.sized in S. simpl in S.
  apply andb_true_iff in S as [Sw Sh].
  apply Z.ltb_lt in Sw. apply Z.ltb_lt in Sh.
  exists l, t, (l + w)%Z, (t + h)%Z. simpl.
  split; [reflexivity|]. split; [lia|]. split; [lia|]. split.
  - intros r Hr. apply list_elem_of_singleton in Hr as ->. simpl. lia.
  - repeat split; eexists; (split; [apply list_elem_of_singleton; reflexivity|]);
      reflexivity.
Qed.

Lemma covers_mono b seen r :
  Spec.covers b seen -> Spec.layoutBox r = true -> Highlighter.sized r = true ->
  Spec.covers (Spec.widen b r) (seen ++ [r]).
Proof.
  intros (x0 & y0 & x1 & y1 & -> & Hx & Hy & Hall & (a & Ha & Ea) &
          (c & Hc & Ec) & (d & Hd & Ed) & (f & Hf & Ef)) L S.
  apply layoutBox_inv in L as (t & l & w & h & Hw & Hh & ->).
  unfold Spec.widen. rewrite S. unfold Highlighter.sized in S. simpl in S.
  apply andb_true_iff in S as [Sw Sh].
  apply Z.ltb_lt in Sw. apply Z.ltb_lt in Sh.
  set (r := Dom.mkRect (JS.Fin t) (JS.Fin l) (JS.Fin (l + w))
                       (JS.Fin (t + h)) (JS.Fin w) (JS.Fin h)).
  exists (Z.min x0 l), (Z.min y0 t), (Z.max x1 (l + w)), (Z.max y1 (t + h)).
  simpl. split; [reflexivity|]. split; [lia|]. split; [lia|]. split.
  - intros q Hq. apply elem_of_app in Hq as [Hq|Hq].
    + destruct (Hall q Hq) as (H1 & H2 & H3 & H4).
      unfold Spec.le in *.
      destruct (Dom.left q), (Dom.top q), (Dom.right q), (Dom.bottom q);
        try contradiction; lia.
    + apply list_elem_of_singleton in Hq as ->. simpl. lia.
  - assert (Hr : r ∈ (seen ++ [r])%list)
      by (apply elem_of_app; right; apply list_elem_of_singleton; reflexivity).
    assert (Hold : ∀ q, q ∈ seen -> q ∈ (seen ++ [r])%list)
      by (intros q Hq; apply elem_of_app; auto).
    split; [|split; [|split]].
    + destruct (Z.min_spec x0 l) as [[_ ->]|[_ ->]];
        [exists a | exists r]; auto.
    + destruct (Z.min_spec y0 t) as [[_ ->]|[_ ->]];
        [exists c | exists r]; auto.
    + destruct (Z.max_spec x1 (l + w)) as [[_ ->]|[_ ->]];
        [exists r | exists d]; auto.
    + destruct (Z.max_spec y1 (t + h)) as [[_ ->]|[_ ->]];
        [exists r | exists f]; auto.
Qed.

(** Folding over laid-out rectangles keeps the accumulators at their
    start until the first sized rectangle, and covering from then on. *)
Lemma widen_fold rs :
  ∀ b seen,
    forallb Spec.layoutBox rs = true ->
    (seen = [] ∧ b = Spec.noBounds) ∨ Spec.covers b seen ->
    ((seen ++ List.filter Highlighter.sized rs)%list = [] ∧
     fold_left Spec.widen rs b = Spec.noBounds) ∨
    Spec.covers (fold_left Spec.widen rs b)
                (seen ++ List.filter Highlighter.sized rs).
Proof.
  induction rs as [|r rs IH]; intros b seen L I; simpl.
  - rewrite app_nil_r. exact I.
  - simpl in L. apply andb_true_iff in L as [Lr L].
    destruct (Highlighter.sized r) eqn:S.
    + replace (seen ++ r :: List.filter Highlighter.sized rs)%list
        with ((seen ++ [r]) ++ List.filter Highlighter.sized rs)%list
        by (rewrite <- app_assoc; reflexivity).
      apply IH; [exact L|]. right.
      destruct I as [[-> ->]|I]; [apply widen_first | apply covers_mono]; auto.
    + rewrite (widen_skip _ _ S). apply IH; auto.
Qed.

(** ** The highlight rectangle *)

Lemma zeroSized_not_sized r :
  Highlighter.zeroSized r = true -> Highlighter.sized r = false.
Proof.
  unfold Highlighter.zeroSized, Highlighter.sized. intros H.
  apply orb_true_iff in H as [H|H].
  - destruct (Dom.width r) as [| |w|]; try discriminate.
    simpl in H. apply Z.eqb_eq in H as ->. reflexivity.
  - destruct (Dom.height r) as [| |h|]; try discriminate.
    simpl in H. apply Z.eqb_eq in H as ->. apply andb_false_r.
Qed.

Lemma num_eq_zero a : JS.num_eq a (JS.Fin 0) = true ↔ a = JS.Fin 0.
Proof.
  destruct a as [| |z|]; simpl; try (split; discriminate).
  rewrite Z.eqb_eq. split; [by intros -> | by intros [= ->]].
Qed.

Lemma synthesizes_iff e :
  Highlighter.synthesizes e = true ↔
  (Dom.width (Dom.rect e) = JS.Fin 0 ∨ Dom.height (Dom.rect e) = JS.Fin 0) ∧
  Dom.children e ≠ [].
Proof.
  unfold Highlighter.synthesizes, Highlighter.zeroSized.
  rewrite andb_true_iff, orb_true_iff, !num_eq_zero.
  destruct (Dom.children e); simpl; split; intros [H1 H2];
    (split; [exact H1|]); done.
Qed.

Lemma forallb_rects (ds : list Dom.Element) :
  forallb Spec.layoutBox (map Dom.rect ds) =
  forallb (fun d => Spec.layoutBox (Dom.rect d)) ds.
Proof. induction ds as [|d ds IH]; simpl; [|rewrite IH]; reflexivity. Qed.

(** What the synthesis yields: the element's own rectangle when nothing
    below it is sized, else the union box of the sized rectangles below
    it, which is itself sized. *)
Lemma boundsOf_synthesized e :
  Spec.laidOutBelow e = true -> Highlighter.synthesizes e = true ->
  (Spec.sizedBelow e = [] ∧ Highlighter.boundsOf e = Dom.rect e) ∨
  (Spec.sizedBelow e ≠ [] ∧
   Spec.isUnionOf (Highlighter.boundsOf e) (Spec.sizedBelow e) ∧
   Highlighter.zeroSized (Highlighter.boundsOf e) = false).
Proof.
  intros L S. unfold Highlighter.boundsOf. rewrite S.
  rewrite calculateBounds_visits. cbn [map fold_left].
  unfold Highlighter.synthesizes in S. apply andb_true_iff in S as [Z _].
  fold Spec.noBounds.
  rewrite (widen_skip _ _ (zeroSized_not_sized _ Z)).
  unfold Spec.laidOutBelow in L. rewrite <- forallb_rects in L.
  destruct (widen_fold _ Spec.noBounds [] L (or_introl (conj eq_refl eq_refl)))
    as [[E ->] | C]; simpl in *.
  - left. split; [exact E | reflexivity].
  - right. fold (Spec.sizedBelow e) in C.
    destruct C as (x0 & y0 & x1 & y1 & -> & Hx & Hy & Hall & Ha & Hb & Hc & Hd).
    simpl. split; [|split].
    + destruct Ha as (r & Hr & _). intros E. rewrite E in Hr.
      by apply not_elem_of_nil in Hr.
    + unfold Spec.isUnionOf. simpl. auto 10.
    + unfold Highlighter.zeroSized. simpl. apply orb_false_iff.
      split; apply Z.eqb_neq; lia.
Qed.

(** C2, as the code has it.  For a resolved element whose subtree is
    laid out: the rectangle is synthesized from the subtree exactly when
    at least one dimension of the element's own rectangle is zero and the
    element has children, and else is the element's own; the synthesized
    rectangle is the union box of all rectangles of positive width and
    height strictly below the element, at any depth, and the overlay is
    rendered over it; when nothing below is sized, no overlay is
    rendered. *)
Theorem highlight_bounds
  (JSON_parse : string -> JS.Completion JS.JSON)
  (path : string) (page : Highlighter.Page) (e : Dom.Element) :
  Highlighter.resolvePath (Highlighter.body page) path = Some e ->
  Spec.laidOutBelow e = true ->
  let shown :=
    Highlighter.overlay (Highlighter.highlightInPage JSON_parse path page) in
  (Highlighter.synthesizes e = true ↔
   (Dom.width (Dom.rect e) = JS.Fin 0 ∨ Dom.height (Dom.rect e) = JS.Fin 0) ∧
   Dom.children e ≠ []) ∧
  (Highlighter.synthesizes e = false ->
   Highlighter.boundsOf e = Dom.rect e) ∧
  (Highlighter.synthesizes e = true -> Spec.sizedBelow e ≠ [] ->
   Spec.isUnionOf (Highlighter.boundsOf e) (Spec.sizedBelow e) ∧
   shown = Some (Highlighter.mkOverlay (Highlighter.boundsOf e)
                   (Highlighter.labelOf JSON_parse e))) ∧
  (Highlighter.synthesizes e = true -> Spec.sizedBelow e = [] ->
   shown = None).
Proof.
  intros R L shown. subst shown. unfold Highlighter.highlightInPage.
  rewrite R. cbv zeta.
  split; [apply synthesizes_iff|]. split; [|split].
  - intros S. unfold Highlighter.boundsOf. rewrite S. reflexivity.
  - intros S N. destruct (boundsOf_synthesized e L S) as [[E _]|(_ & U & Z)];
      [contradiction|].
    rewrite Z. auto.
  - intros S N. destruct (boundsOf_synthesized e L S) as [[_ E]|(E & _)];
      [|contradiction].
    rewrite E. unfold Highlighter.synthesizes in S.
    apply andb_true_iff in S as [-> _]. reflexivity.
Qed.

(** Witness for C2: the scenario of the specification, an island of
    zero size around one sized child. *)
Lemma highlight_bounds_witness :
  Highlighter.resolvePath (Highlighter.body Samples.islandPage) "0"
    = Some Samples.zeroIsland ∧
  Spec.laidOutBelow Samples.zeroIsland = true ∧
  Highlighter.overlay
    (Highlighter.highlightInPage Samples.sampleParse "0" Samples.islandPage)
    = Some (Highlighter.mkOverlay (Highlighter.boundsOf Samples.zeroIsland)
              (Highlighter.labelOf Samples.sampleParse Samples.zeroIsland)).
Proof.
  split; [reflexivity|]. split; [reflexivity|].
  apply (highlight_bounds Samples.sampleParse "0" Samples.islandPage
           Samples.zeroIsland eq_refl eq_refl).
  - reflexivity.
  - discriminate.
Defined.

(** The scenario, evaluated: the overlay box is the child's box. *)
Example highlight_island_scenario :
  Highlighter.overlay
    (Highlighter.highlightInPage Samples.sampleParse "0" Samples.islandPage)
  = Some (Highlighter.mkOverlay (Samples.boxAt 10 5 100 40)
            (Highlighter.ComponentLabel (JS.JStr "Counter"))).
Proof. reflexivity. Qed.

(** C2 as stated fails when only one dimension is zero: the wrapper is
    50 high and 0 wide, so not both dimensions are zero, and still its
    rectangle is synthesized from the child below it. *)
Lemma synthesis_with_one_zero_dimension :
  Dom.width (Dom.rect Samples.flatWrapper) = JS.Fin 0 ∧
  Dom.height (Dom.rect Samples.flatWrapper) = JS.Fin 50 ∧
  Highlighter.synthesizes Samples.flatWrapper = true ∧
  Highlighter.boundsOf Samples.flatWrapper = Samples.boxAt 10 5 100 40 ∧
  Highlighter.boundsOf Samples.flatWrapper ≠ Dom.rect Samples.flatWrapper.
Proof. repeat split; try reflexivity. discriminate. Qed.

(** ** Lookups that fail *)

(** C7, as the code has it.  When the path of a node does not resolve,
    or resolves to an element for which no sized rectangle is found,
    highlighting it does exactly what clearing the highlight does: no
    overlay is rendered, an overlay shown before is removed, and a page
    without overlay is left as it was.  Scrolling to a path that does
    not resolve leaves the page as it was.  None of this touches the
    session, and the operations have no failing outcome. *)
Theorem failed_lookup_quiet
  (JSON_parse : string -> JS.Completion JS.JSON)
  (w : Panel.World) (node : App.TreeNode) :
  let pg := Panel.page w in
  let found := Highlighter.resolvePath (Highlighter.body pg) (App.path node) in
  (found = None ∨
   ∃ e, found = Some e ∧
        Highlighter.zeroSized (Highlighter.boundsOf e) = true) ->
  Panel.handleMouseEnter JSON_parse node w = Panel.handleMouseLeave w ∧
  Panel.session (Panel.handleMouseEnter JSON_parse node w) = Panel.session w ∧
  Highlighter.overlay (Panel.page (Panel.handleMouseEnter JSON_parse node w))
    = (if Highlighter.hasTab (Panel.tabId w) then None
       else Highlighter.overlay pg) ∧
  (Highlighter.overlay pg = None ->
   Panel.handleMouseEnter JSON_parse node w = w) ∧
  (found = None ->
   Highlighter.scrollToElement (Panel.tabId w) (App.path node) pg = pg ∧
   Panel.handleSelectNode node w =
     Panel.mkWorld (App.setSelectedNode (Panel.session w) node)
       (Panel.tabId w) pg).
Proof.
  intros pg found F. subst pg found.
  destruct w as [s tab [b o v]].
  cbn [Panel.page Panel.session Panel.tabId Highlighter.body] in *.
  assert (H : Highlighter.highlightElement JSON_parse tab (App.path node)
                (Highlighter.mkPage b o v) =
              Highlighter.clearHighlight tab (Highlighter.mkPage b o v)).
  { unfold Highlighter.highlightElement, Highlighter.clearHighlight,
      Highlighter.highlightInPage. cbn [Highlighter.body Highlighter.inView].
    destruct (Highlighter.hasTab tab); [|reflexivity].
    destruct F as [-> | (e & -> & ->)]; reflexivity. }
  unfold Panel.handleMouseEnter, Panel.handleMouseLeave, Panel.handleSelectNode.
  cbn [Panel.page Panel.session Panel.tabId]. rewrite H.
  split; [reflexivity|]. split; [reflexivity|]. split; [|split].
  - unfold Highlighter.clearHighlight.
    destruct (Highlighter.hasTab tab); reflexivity.
  - cbn [Highlighter.overlay]. intros ->. unfold Highlighter.clearHighlight.
    destruct (Highlighter.hasTab tab); reflexivity.
  - intros N.
    assert (S : Highlighter.scrollToElement tab (App.path node)
                  (Highlighter.mkPage b o v) = Highlighter.mkPage b o v).
    { unfold Highlighter.scrollToElement, Highlighter.scrollInPage.
      cbn [Highlighter.body]. rewrite N.
      destruct (Highlighter.hasTab tab); reflexivity. }
    rewrite S. auto.
Qed.

(** Witness for C7: hovering a node whose path leads nowhere, over a
    page that shows an overlay. *)
Lemma failed_lookup_quiet_witness :
  Highlighter.resolvePath
    (Highlighter.body (Panel.page Samples.hoverWorld))
    (App.path Samples.strayNode) = None ∧
  Panel.handleMouseEnter Samples.sampleParse Samples.strayNode
    Samples.hoverWorld = Panel.handleMouseLeave Samples.hoverWorld.
Proof.
  split; [reflexivity|].
  apply (failed_lookup_quiet Samples.sampleParse Samples.hoverWorld
           Samples.strayNode).
  left. reflexivity.
Defined.

(** C7 as stated fails on the page: a highlight whose path does not
    resolve removes the overlay that was shown, and a scroll to an
    island without any sized element below it scrolls to the island
    itself. *)
Lemma failed_lookup_changes_page :
  Highlighter.resolvePath (Highlighter.body Samples.highlightedPage) "3"
    = None ∧
  Highlighter.highlightElement Samples.sampleParse (Some 1) "3"
    Samples.highlightedPage ≠ Samples.highlightedPage ∧
  Highlighter.resolvePath (Highlighter.body Samples.highlightedPage) "0"
    = Some Samples.hiddenIsland ∧
  Highlighter.zeroSized (Highlighter.boundsOf Samples.hiddenIsland) = true ∧
  Highlighter.findVisibleChild Samples.hiddenIsland = None ∧
  Highlighter.scrollToElement (Some 1) "0" Samples.highlightedPage
    ≠ Samples.highlightedPage.
Proof. repeat split; try reflexivity; discriminate. Qed.

(** ** Arrow-left in the tree panel *)

Lemma firstSome_lookup {A B} (f : A -> option B) (l : list A) b :
  Spec.firstSome f l = Some b -> ∃ j a, l !! j = Some a ∧ f a = Some b.
Proof.
  induction l as [|a l IH]; simpl; [discriminate|].
  destruct (f a) as [b'|] eqn:E.
  - intros [= ->]. exists 0, a. auto.
  - intros H. destruct (IH H) as (j & a' & Hj & Ha). exists (S j), a'. auto.
Qed.

Lemma findParent_root root : App.findParent root (App.id root) None = None.
Proof. rewrite findParent_eq, String.eqb_refl. reflexivity. Qed.

(** What [findParent] returns is the node it was handed for the root,
    or a node of the tree one of whose children has the id. *)
Lemma findParent_found root :
  ∀ targetId parent p,
    App.findParent root targetId parent = Some p ->
    (parent = Some p ∧ App.id root = targetId) ∨
    ∃ pos j c, Spec.nodeAt root pos = Some p ∧
               App.children p !! j = Some c ∧ App.id c = targetId.
Proof.
  induction root as [root IH] using TreeNode_forall_ind.
  intros targetId parent p H. rewrite findParent_eq in H.
  destruct (String.eqb (App.id root) targetId) eqn:E.
  - left. apply String.eqb_eq in E. auto.
  - right. apply firstSome_lookup in H as (j & c & Hj & Hc).
    rewrite Forall_forall in IH.
    assert (Hin : c ∈ App.children root)
      by (apply list_elem_of_lookup; eauto).
    destruct (IH c Hin _ _ _ Hc) as [[[= <-] Hid] | (pos & j' & c' & Hp & Hj' & Hc')].
    + exists [], j, c. auto.
    + exists (j :: pos), j', c'. simpl. rewrite Hj. auto.
Qed.

Lemma visibleNodes_nonempty s ft :
  App.filteredTree s = Some ft -> (length (App.visibleNodes s) =? 0) = false.
Proof.
  intros H. unfold App.visibleNodes. rewrite H.
  rewrite (flatten_length (App.expandedNodes s) ft [] [] eq_refl). reflexivity.
Qed.

(** Without a filtered tree no key does anything: the session is what
    it was, the default action is not prevented and no scroll is asked
    for. *)
Lemma handleKeyDown_without_tree s key :
  App.filteredTree s = None ->
  App.handleKeyDown s key = App.mkHandled s false None.
Proof. intros H. unfold App.handleKeyDown. rewrite H. reflexivity. Qed.

(** C9, as the code has it.  With a selected node: when there is no
    filtered tree, Left does nothing.  When there is one, Left on a
    selected node that is expanded and has children collapses it and
    leaves the selection alone; otherwise Left moves the selection to the
    node [findParent] returns for the filtered tree, a node of that tree
    with a child of the selected id, and asks to scroll to it; it changes
    nothing when [findParent] returns none, as it does for the root. *)
Theorem arrowLeft_collapse_or_parent (s : App.Session) (sel : App.TreeNode) :
  App.selectedNode s = Some sel ->
  let h := App.handleKeyDown s "ArrowLeft" in
  match App.filteredTree s with
  | None => h = App.mkHandled s false None
  | Some ft =>
      (App.id sel ∈ App.expandedNodes s ∧ App.children sel ≠ [] ->
       App.next h =
         App.setExpandedNodes s (App.expandedNodes s ∖ {[ App.id sel ]}) ∧
       App.selectedNode (App.next h) = Some sel ∧
       (App.id sel ∉ App.expandedNodes (App.next h)) ∧
       App.scrolledTo h = None) ∧
      ((¬ (App.id sel ∈ App.expandedNodes s ∧ App.children sel ≠ [])) ->
       match App.findParent ft (App.id sel) None with
       | Some p =>
           App.next h = App.setSelectedNode s p ∧
           App.scrolledTo h = Some (App.path p) ∧
           ∃ pos j c, Spec.nodeAt ft pos = Some p ∧
                      App.children p !! j = Some c ∧ App.id c = App.id sel
       | None => App.next h = s ∧ App.scrolledTo h = None
       end) ∧
      App.findParent ft (App.id ft) None = None
  end.
Proof.
  intros Hsel h. subst h.
  destruct (App.filteredTree s) as [ft|] eqn:Hft;
    [|apply handleKeyDown_without_tree, Hft].
  unfold App.handleKeyDown.
  rewrite Hft, (visibleNodes_nonempty s ft Hft), Hsel. simpl.
  split; [|split; [|apply findParent_root]].
  - intros [Hin Hch].
    rewrite (bool_decide_eq_true_2 _ Hin).
    destruct (App.children sel) as [|c cs] eqn:Ec; [done|]. simpl.
    unfold App.toggleNode. rewrite (bool_decide_eq_true_2 _ Hin). simpl.
    rewrite Hsel. repeat split.
    intros [_ H]%elem_of_difference. apply H, elem_of_singleton. reflexivity.
  - intros Hn.
    assert (E : bool_decide (App.id sel ∈ App.expandedNodes s)
                && (0 <? length (App.children sel)) = false).
    { apply not_true_iff_false. intros E. apply Hn.
      apply andb_true_iff in E as [E1 E2].
      apply bool_decide_eq_true_1 in E1. split; [exact E1|].
      destruct (App.children sel); [discriminate | done]. }
    rewrite E.
    destruct (App.findParent ft (App.id sel) None) as [p|] eqn:F; simpl.
    + split; [reflexivity|]. split; [reflexivity|].
      apply findParent_found in F as [[? _]|F]; [discriminate | exact F].
    + auto.
Qed.

(** Witness for C9: the expanded body is selected, unfiltered. *)
Lemma arrowLeft_collapse_or_parent_witness :
  App.selectedNode Samples.expandedBody = Some Samples.bodyWithDiv ∧
  App.findParent Samples.bodyWithDiv (App.id Samples.bodyWithDiv) None = None.
Proof.
  split; [reflexivity|].
  exact (proj2 (proj2 (arrowLeft_collapse_or_parent Samples.expandedBody
                         Samples.bodyWithDiv eq_refl))).
Defined.

(** C9 as stated fails when the islands-only filter leaves no tree: the
    selected node is expanded and has children, and Left leaves it
    expanded. *)
Lemma arrowLeft_without_filtered_tree :
  App.selectedNode Samples.filteredOut = Some Samples.bodyWithDiv ∧
  App.id Samples.bodyWithDiv ∈ App.expandedNodes Samples.filteredOut ∧
  App.children Samples.bodyWithDiv ≠ [] ∧
  App.handleKeyDown Samples.filteredOut "ArrowLeft" =
    App.mkHandled Samples.filteredOut false None.
Proof.
  split; [reflexivity|]. split; [|split; [discriminate | reflexivity]].
  apply (bool_decide_unpack _). vm_compute. exact I.
Qed.

(** * Further properties of the code *)

(** ** Positions and document order *)

Lemma nodeAt_nodes pos :
  ∀ t n, Spec.nodeAt t pos = Some n -> n ∈ Spec.nodes t.
Proof.
  induction pos as [|j pos IH]; intros t n H; simpl in H; rewrite nodes_eq.
  - injection H as ->. apply list_elem_of_here.
  - destruct (App.children t !! j) as [c|] eqn:Hj; [|discriminate].
    apply list_elem_of_further, list_elem_of_In, in_flat_map.
    exists c. split; apply list_elem_of_In.
    + apply list_elem_of_lookup. eauto.
    + apply IH, H.
Qed.

Lemma nodes_nodeAt t :
  ∀ n, n ∈ Spec.nodes t -> ∃ pos, Spec.nodeAt t pos = Some n.
Proof.
  induction t as [t IH] using TreeNode_forall_ind. intros n H.
  rewrite nodes_eq in H. apply elem_of_cons in H as [->|H].
  - exists []. reflexivity.
  - apply list_elem_of_In, in_flat_map in H as (c & Hc & Hn).
    apply list_elem_of_In in Hc, Hn. rewrite Forall_forall in IH.
    destruct (IH c Hc n Hn) as [pos Hp].
    apply list_elem_of_lookup in Hc as [j Hj].
    exists (j :: pos). simpl. rewrite Hj. exact Hp.
Qed.

(** X1.  [hasIslandDescendant] answers true exactly when the node itself
    or some node below it, at any depth, is an island. *)
Theorem hasIslandDescendant_iff (n : App.TreeNode) :
  App.hasIslandDescendant n = true ↔
  ∃ isl, isl ∈ Spec.nodes n ∧ App.isAstroIsland isl = true.
Proof.
  split.
  - intros H. apply hasIslandDescendant_position in H as (pos & isl & Hp & Hi).
    exists isl. split; [eapply nodeAt_nodes; eauto | exact Hi].
  - intros (isl & Hin & Hi). apply nodes_nodeAt in Hin as [pos Hp].
    eapply position_hasIslandDescendant; eauto.
Qed.

(** ** The auto-expand set, the other way round *)

Lemma collect_step_mono (ch : list App.TreeNode) :
  Forall (fun c => ∀ r : gset string, r ⊆ App.collectExpandedNodes c r) ch ->
  ∀ r : gset string,
    r ⊆ fold_left (fun r c => if App.hasIslandDescendant c
                              then App.collectExpandedNodes c r else r) ch r.
Proof.
  induction 1 as [|c ch Hc _ IH]; intros r; simpl; [done|].
  etrans; [|apply IH]. destruct (App.hasIslandDescendant c); [apply Hc | done].
Qed.

(** The set handed in is never shrunk. *)
Lemma collectExpandedNodes_mono n :
  ∀ r : gset string, r ⊆ App.collectExpandedNodes n r.
Proof.
  induction n as [n IH] using TreeNode_forall_ind. intros r.
  rewrite collectExpandedNodes_eq.
  etrans; [|apply (collect_step_mono _ IH)]. apply union_subseteq_r.
Qed.

Lemma collectExpandedNodes_self n (r : gset string) :
  App.id n ∈ App.collectExpandedNodes n r.
Proof.
  rewrite collectExpandedNodes_eq.
  eapply elem_of_weaken; [|apply collect_step_mono].
  - apply elem_of_union_l, elem_of_singleton. reflexivity.
  - apply Forall_forall. intros c _. apply collectExpandedNodes_mono.
Qed.

Lemma collect_step_reaches (ch : list App.TreeNode) :
  ∀ j c x (r : gset string),
    ch !! j = Some c -> App.hasIslandDescendant c = true ->
    (∀ r' : gset string, x ∈ App.collectExpandedNodes c r') ->
    x ∈ fold_left (fun r c => if App.hasIslandDescendant c
                              then App.collectExpandedNodes c r else r) ch r.
Proof.
  induction ch as [|c0 ch IH]; intros j c x r Hj Hc Hx; [done|].
  destruct j as [|j]; simpl in *.
  - injection Hj as ->. rewrite Hc.
    eapply elem_of_weaken; [apply Hx | apply collect_step_mono].
    apply Forall_forall. intros c' _. apply collectExpandedNodes_mono.
  - eapply IH; eauto.
Qed.

Lemma collectExpandedNodes_reaches pos :
  ∀ root (r : gset string) isl k n,
    Spec.nodeAt root pos = Some isl -> App.isAstroIsland isl = true ->
    Spec.nodeAt root (take k pos) = Some n ->
    App.id n ∈ App.collectExpandedNodes root r.
Proof.
  induction pos as [|j pos IH]; intros root r isl k n Hp Hi Hk.
  - rewrite take_nil in Hk. injection Hk as <-. apply collectExpandedNodes_self.
  - destruct k as [|k]; simpl in Hk.
    + injection Hk as <-. apply collectExpandedNodes_self.
    + simpl in Hp. destruct (App.children root !! j) as [c|] eqn:Hj; [|done].
      rewrite collectExpandedNodes_eq.
      apply (collect_step_reaches _ j c); [exact Hj | |].
      * exact (position_hasIslandDescendant pos c isl Hp Hi).
      * intros r'. exact (IH c r' isl k n Hp Hi Hk).
Qed.

(** X2.  The auto-expand set holds the root's id and the id of every
    node on the way from the root to an island, and collecting into a set
    never removes an id that was in it. *)
Theorem autoExpandSet_complete (root : App.TreeNode) :
  App.id root ∈ Spec.autoExpandSet root ∧
  (∀ i, Spec.onIslandPath root i -> i ∈ Spec.autoExpandSet root) ∧
  (∀ r : gset string, r ⊆ App.collectExpandedNodes root r).
Proof.
  split; [apply collectExpandedNodes_self|].
  split; [|apply collectExpandedNodes_mono].
  intros i (pos & isl & k & n & Hp & Hi & Hk & <-).
  exact (collectExpandedNodes_reaches pos root ∅ isl k n Hp Hi Hk).
Qed.

(** ** The visible list *)

Lemma flatten_children_app E (ch : list App.TreeNode) :
  Forall (fun c => ∀ r, App.flattenVisibleTree c E r =
                        (r ++ App.flattenVisibleTree c E [])%list) ch ->
  ∀ r, fold_left (fun r c => App.flattenVisibleTree c E r) ch r =
       (r ++ flat_map (fun c => App.flattenVisibleTree c E []) ch)%list.
Proof.
  induction 1 as [|c ch Hc _ IH]; intros r; simpl.
  - rewrite app_nil_r. reflexivity.
  - rewrite IH, Hc, <- app_assoc. reflexivity.
Qed.

(** Flattening appends to the list it is handed. *)
Lemma flatten_app E n :
  ∀ r, App.flattenVisibleTree n E r =
       (r ++ App.flattenVisibleTree n E [])%list.
Proof.
  induction n as [n IH] using TreeNode_forall_ind. intros r.
  rewrite !flattenVisibleTree_eq.
  destruct (bool_decide (App.id n ∈ E)); [|reflexivity].
  rewrite !(flatten_children_app E _ IH), <- app_assoc. reflexivity.
Qed.

Lemma flatten_cons E n :
  App.flattenVisibleTree n E [] =
  n :: (if bool_decide (App.id n ∈ E)
        then flat_map (fun c => App.flattenVisibleTree c E []) (App.children n)
        else []).
Proof.
  rewrite flattenVisibleTree_eq.
  destruct (bool_decide (App.id n ∈ E)); [|reflexivity].
  rewrite flatten_children_app; [reflexivity|].
  apply Forall_forall. intros c _. apply flatten_app.
Qed.

Lemma ids_eq t :
  Spec.ids t = App.id t :: flat_map Spec.ids (App.children t).
Proof.
  unfold Spec.ids. rewrite nodes_eq. simpl. f_equal.
  induction (App.children t) as [|c ch IH]; simpl; [reflexivity|].
  rewrite map_app, IH. reflexivity.
Qed.

(** With every id of the tree expanded, the visible list is the whole
    tree in document order. *)
Lemma flatten_all E t :
  (∀ i, i ∈ Spec.ids t -> i ∈ E) ->
  App.flattenVisibleTree t E [] = Spec.nodes t.
Proof.
  induction t as [t IH] using TreeNode_forall_ind. intros H.
  rewrite flatten_cons, nodes_eq, ids_eq in *.
  rewrite bool_decide_eq_true_2 by (apply H, list_elem_of_here).
  f_equal.
  assert (H' : ∀ i, i ∈ flat_map Spec.ids (App.children t) -> i ∈ E)
    by (intros i Hi; apply H, list_elem_of_further, Hi).
  clear H. induction IH as [|c ch Hc _ IHl]; simpl in *; [reflexivity|].
  rewrite Hc, IHl; [reflexivity | |]; intros i Hi; apply H', elem_of_app; auto.
Qed.

Lemma flatten_sublist E t :
  App.flattenVisibleTree t E [] `sublist_of` Spec.nodes t.
Proof.
  induction t as [t IH] using TreeNode_forall_ind.
  rewrite flatten_cons, nodes_eq. apply sublist_skip.
  destruct (bool_decide (App.id t ∈ E)); [|apply sublist_nil_l].
  induction IH as [|c ch Hc _ IHl]; simpl; [constructor|].
  apply sublist_app; assumption.
Qed.

(** X3.  Whatever is expanded, the visible list starts with the root and
    is a subsequence of the tree's nodes in document order. *)
Theorem flattenVisible_sublist (t : App.TreeNode) (expandedIds : gset string) :
  head (App.flattenVisibleTree t expandedIds []) = Some t ∧
  App.flattenVisibleTree t expandedIds [] `sublist_of` Spec.nodes t.
Proof.
  split; [rewrite flatten_cons; reflexivity | apply flatten_sublist].
Qed.

Lemma collect_eq n a :
  App.collect n a =
  fold_left (fun a c => App.collect c a) (App.children n) ({[ App.id n ]} ∪ a).
Proof.
  destruct n as [i tg isl cn cd pr fw ch d p]; simpl.
  generalize ({[ i ]} ∪ a). induction ch as [|c ch IH]; intros a'; simpl;
    [reflexivity | apply IH].
Qed.

(** What [expandAll] collects: the ids of all nodes, and nothing else. *)
Lemma collect_spec n :
  ∀ (a : gset string) i, i ∈ App.collect n a ↔ i ∈ a ∨ i ∈ Spec.ids n.
Proof.
  induction n as [n IH] using TreeNode_forall_ind. intros a i.
  rewrite collect_eq, ids_eq, elem_of_cons.
  assert (G : ∀ a' : gset string,
    i ∈ fold_left (fun a c => App.collect c a) (App.children n) a' ↔
    i ∈ a' ∨ i ∈ flat_map Spec.ids (App.children n)).
  { induction IH as [|c ch Hc _ IHl]; intros a'; simpl.
    - rewrite elem_of_nil. tauto.
    - rewrite IHl, Hc, elem_of_app. tauto. }
  rewrite G, elem_of_union, elem_of_singleton. tauto.
Qed.

(** ** More on the islands-only filter *)

Lemma filter_shape n n' :
  App.filter n = Some n' ->
  n' = App.withChildren n (omap App.filter (App.children n)).
Proof.
  rewrite filter_eq. cbv zeta.
  destruct (App.isAstroIsland n); [congruence|].
  destruct (0 <? _); congruence.
Qed.

Lemma omap_filter_fixed (ch : list App.TreeNode) :
  Forall (fun c => ∀ c', App.filter c = Some c' -> App.filter c' = Some c') ch ->
  omap App.filter (omap App.filter ch) = omap App.filter ch.
Proof.
  induction 1 as [|c ch Hc _ IH]; simpl; [reflexivity|].
  destruct (App.filter c) as [c'|] eqn:E; simpl; [|exact IH].
  rewrite (Hc c' eq_refl). simpl. f_equal. exact IH.
Qed.

Lemma filter_fixed (n : App.TreeNode) :
  ∀ n', App.filter n = Some n' -> App.filter n' = Some n'.
Proof.
  induction n as [n IH] using TreeNode_forall_ind. intros n' H.
  pose proof (filter_shape n n' H) as ->.
  rewrite filter_eq in H. rewrite filter_eq. cbv zeta in *.
  cbn [App.withChildren App.children App.isAstroIsland].
  rewrite (omap_filter_fixed _ IH).
  destruct (App.isAstroIsland n); [reflexivity|].
  destruct (0 <? length (omap App.filter (App.children n))); [reflexivity|].
  discriminate.
Qed.

(** X4.  Filtering is idempotent: a filtered tree passes the filter
    unchanged. *)
Theorem filter_idempotent (n n' : App.TreeNode) :
  App.filter n = Some n' -> App.filter n' = Some n'.
Proof. apply filter_fixed. Qed.

(** Witness for X4: an island around a plain element, under the body. *)
Lemma filter_idempotent_witness :
  App.filter (Samples.plain "node-0" "body" [Samples.islandWithDiv] 0 "")
    = Some (Samples.plain "node-0" "body"
              [Samples.island "node-1" [] 1 "0"] 0 "") ∧
  App.filter (Samples.plain "node-0" "body"
                [Samples.island "node-1" [] 1 "0"] 0 "")
    = Some (Samples.plain "node-0" "body"
              [Samples.island "node-1" [] 1 "0"] 0 "").
Proof.
  split; [reflexivity|].
  apply (filter_idempotent
           (Samples.plain "node-0" "body" [Samples.islandWithDiv] 0 "")
           (Samples.plain "node-0" "body"
              [Samples.island "node-1" [] 1 "0"] 0 "")).
  reflexivity.
Defined.

Lemma filter_nodes_fixed n :
  ∀ n', App.filter n = Some n' ->
        ∀ m, m ∈ Spec.nodes n' -> App.filter m = Some m.
Proof.
  induction n as [n IH] using TreeNode_forall_ind. intros n' H m Hm.
  rewrite nodes_eq in Hm. apply elem_of_cons in Hm as [->|Hm].
  - eapply filter_fixed, H.
  - pose proof (filter_shape n n' H) as ->. simpl in Hm.
    apply list_elem_of_In, in_flat_map in Hm as (c' & Hc' & Hm).
    apply list_elem_of_In in Hc', Hm.
    apply list_elem_of_omap in Hc' as (c & Hc & Ec).
    rewrite Forall_forall in IH. exact (IH c Hc c' Ec m Hm).
Qed.

Lemma shallow_nodes_sublist n :
  ∀ n', App.filter n = Some n' ->
        map Spec.shallow (Spec.nodes n') `sublist_of`
        map Spec.shallow (Spec.nodes n).
Proof.
  induction n as [n IH] using TreeNode_forall_ind. intros n' H.
  pose proof (filter_shape n n' H) as ->. rewrite !nodes_eq. simpl.
  change (Spec.shallow (App.withChildren n (omap App.filter (App.children n))))
    with (Spec.shallow n).
  apply sublist_skip. clear H.
  induction IH as [|c ch Hc _ IHl]; simpl; [constructor|].
  rewrite map_app. destruct (App.filter c) as [c'|] eqn:E; simpl.
  - rewrite map_app. apply sublist_app; [apply Hc; reflexivity | exact IHl].
  - apply sublist_inserts_l, IHl.
Qed.

(** X5.  What the filter keeps: every kept node carries its own fields
    unchanged and the kept nodes stay in document order; every node of
    the result is an island or leads to one, and every leaf of the
    result is an island. *)
Theorem filter_keeps_island_branches (t t' : App.TreeNode) :
  App.filter t = Some t' ->
  map Spec.shallow (Spec.nodes t') `sublist_of` map Spec.shallow (Spec.nodes t) ∧
  (∀ n, n ∈ Spec.nodes t' -> App.hasIslandDescendant n = true) ∧
  (∀ n, n ∈ Spec.nodes t' -> App.children n = [] ->
        App.isAstroIsland n = true).
Proof.
  intros H.
  assert (G : ∀ n, n ∈ Spec.nodes t' -> App.hasIslandDescendant n = true).
  { intros n Hn. pose proof (filter_nodes_fixed t t' H n Hn) as F.
    destruct (App.hasIslandDescendant n) eqn:E; [reflexivity|].
    apply filter_None in E. congruence. }
  split; [by apply shallow_nodes_sublist|]. split; [exact G|].
  intros n Hn Hc. specialize (G n Hn).
  rewrite hasIslandDescendant_eq, Hc in G. simpl in G.
  rewrite orb_false_r in G. exact G.
Qed.

(** Witness for X5: an island around a plain element, under the body. *)
Lemma filter_keeps_island_branches_witness :
  App.filter (Samples.plain "node-0" "body" [Samples.islandWithDiv] 0 "")
    = Some (Samples.plain "node-0" "body"
              [Samples.island "node-1" [] 1 "0"] 0 "") ∧
  ∀ n, n ∈ Spec.nodes (Samples.plain "node-0" "body"
                         [Samples.island "node-1" [] 1 "0"] 0 "") ->
       App.hasIslandDescendant n = true.
Proof.
  split; [reflexivity|].
  apply (filter_keeps_island_branches
           (Samples.plain "node-0" "body" [Samples.islandWithDiv] 0 "")
           (Samples.plain "node-0" "body"
              [Samples.island "node-1" [] 1 "0"] 0 "")).
  reflexivity.
Defined.

Lemma ids_shallow l :
  map App.id l = map App.id (map Spec.shallow l).
Proof. rewrite map_map. reflexivity. Qed.

(** The ids of a filtered tree are ids of the tree it came from. *)
Lemma filter_ids n n' i :
  App.filter n = Some n' -> i ∈ Spec.ids n' -> i ∈ Spec.ids n.
Proof.
  intros H Hi. unfold Spec.ids in *. rewrite ids_shallow in Hi.
  rewrite ids_shallow.
  apply list_elem_of_fmap in Hi as (m & -> & Hm).
  apply list_elem_of_fmap_2.
  eapply elem_of_sublist; [exact Hm|]. by apply shallow_nodes_sublist.
Qed.

(** ** Expanding and collapsing everything, toggling *)

Lemma filteredTree_cases s ft :
  App.filteredTree s = Some ft ->
  ∃ t, App.tree s = Some t ∧
       (if App.showIslandsOnly s then App.filter t = Some ft else ft = t).
Proof.
  unfold App.filteredTree. destruct (App.tree s) as [t|]; [|discriminate].
  intros H. exists t. split; [reflexivity|].
  destruct (App.showIslandsOnly s); congruence.
Qed.

(** X6.  After [expandAll] the expanded set is the set of all ids of
    the tree and the visible list is the whole filtered tree in document
    order, whether or not the islands-only filter is on; after
    [collapseAll] only the root is visible. *)
Theorem expandAll_collapseAll_visible (s : App.Session) (ft : App.TreeNode) :
  App.filteredTree s = Some ft ->
  App.visibleNodes (App.expandAll s) = Spec.nodes ft ∧
  App.visibleNodes (App.collapseAll s) = [ft] ∧
  (∀ i, i ∈ App.expandedNodes (App.expandAll s) ↔
        ∃ t, App.tree s = Some t ∧ i ∈ Spec.ids t).
Proof.
  intros H. destruct (filteredTree_cases s ft H) as (t & Ht & Hf).
  unfold App.expandAll, App.collapseAll, App.visibleNodes. rewrite Ht.
  assert (F : ∀ e, App.filteredTree (App.setExpandedNodes s e) = Some ft)
    by (intros e; exact H).
  rewrite !F. cbn [App.setExpandedNodes App.expandedNodes].
  split; [|split].
  - apply flatten_all. intros i Hi. apply collect_spec. right.
    destruct (App.showIslandsOnly s); [eapply filter_ids; eauto | by subst].
  - rewrite flatten_cons. rewrite bool_decide_eq_false_2; [reflexivity|].
    apply not_elem_of_empty.
  - intros i. rewrite collect_spec. split.
    + intros [Hi|Hi]; [by apply not_elem_of_empty in Hi | eauto].
    + intros (t' & [= <-] & Hi). auto.
Qed.

(** Witness for X6: the body with a div, unfiltered. *)
Lemma expandAll_collapseAll_visible_witness :
  App.filteredTree Samples.expandedBody = Some Samples.bodyWithDiv ∧
  App.visibleNodes (App.expandAll Samples.expandedBody)
    = Spec.nodes Samples.bodyWithDiv.
Proof.
  split; [reflexivity|].
  apply (expandAll_collapseAll_visible Samples.expandedBody
           Samples.bodyWithDiv eq_refl).
Defined.

(** X7.  Toggling the same node twice gives back the session as it
    was. *)
Theorem toggleNode_twice (nodeId : string) (s : App.Session) :
  App.toggleNode nodeId (App.toggleNode nodeId s) = s.
Proof.
  assert (E : ∀ e : gset string,
    (if bool_decide (nodeId ∈ (if bool_decide (nodeId ∈ e)
                               then e ∖ {[ nodeId ]} else {[ nodeId ]} ∪ e))
     then (if bool_decide (nodeId ∈ e)
           then e ∖ {[ nodeId ]} else {[ nodeId ]} ∪ e) ∖ {[ nodeId ]}
     else {[ nodeId ]} ∪ (if bool_decide (nodeId ∈ e)
                          then e ∖ {[ nodeId ]} else {[ nodeId ]} ∪ e)) = e).
  { intros e. destruct (decide (nodeId ∈ e)) as [Hin|Hin].
    - rewrite (bool_decide_eq_true_2 _ Hin).
      rewrite bool_decide_eq_false_2
        by (intros [_ H]%elem_of_difference; apply H, elem_of_singleton;
            reflexivity).
      apply set_eq. intros x.
      rewrite elem_of_union, elem_of_difference, elem_of_singleton.
      destruct (decide (x = nodeId)) as [->|]; tauto.
    - rewrite (bool_decide_eq_false_2 _ Hin).
      rewrite bool_decide_eq_true_2
        by (apply elem_of_union_l, elem_of_singleton; reflexivity).
      apply set_eq. intros x.
      rewrite elem_of_difference, elem_of_union, elem_of_singleton.
      split; [tauto|]. intros Hx. split; [auto|]. intros ->. contradiction. }
  destruct s as [t sel f q e l err]. unfold App.toggleNode. simpl.
  unfold App.setExpandedNodes. simpl. rewrite E. reflexivity.
Qed.

(** ** Keyboard navigation *)

Lemma findIndex_range p (l : list App.TreeNode) :
  (-1 <= App.findIndex p l < Z.of_nat (length l))%Z.
Proof.
  induction l as [|n l IH]; simpl; [lia|].
  destruct (p n); [lia|].
  destruct (App.findIndex p l <? 0)%Z eqn:E; [lia|].
  apply Z.ltb_ge in E. lia.
Qed.

Lemma index_in_range (l : list App.TreeNode) (i : Z) :
  (0 <= i < Z.of_nat (length l))%Z ->
  ∃ n, App.index l i = Some n ∧ n ∈ l.
Proof.
  intros H. unfold App.index.
  destruct (i <? 0)%Z eqn:E; [apply Z.ltb_lt in E; lia|].
  destruct (lookup_lt_is_Some_2 l (Z.to_nat i)) as [n Hn]; [lia|].
  exists n. split; [exact Hn|]. apply list_elem_of_lookup. eauto.
Qed.

Lemma currentIndex_range s :
  (-1 <= match App.selectedNode s with
         | Some sel =>
             App.findIndex (fun n => String.eqb (App.id n) (App.id sel))
               (App.visibleNodes s)
         | None => -1
         end < Z.of_nat (length (App.visibleNodes s)))%Z.
Proof.
  destruct (App.selectedNode s); [apply findIndex_range | lia].
Qed.

Lemma visibleNodes_head s ft :
  App.filteredTree s = Some ft ->
  ∃ rest, App.visibleNodes s = ft :: rest.
Proof.
  intros H. unfold App.visibleNodes. rewrite H, flatten_cons. eauto.
Qed.

Lemma visibleNodes_in_tree s ft n :
  App.filteredTree s = Some ft -> n ∈ App.visibleNodes s -> n ∈ Spec.nodes ft.
Proof.
  intros H Hn. unfold App.visibleNodes in Hn. rewrite H in Hn.
  eapply elem_of_sublist; [exact Hn | apply flatten_sublist].
Qed.

(** Down and Up always end on a node of the visible list. *)
Lemma arrow_moves s ft :
  App.filteredTree s = Some ft ->
  (∃ n, n ∈ App.visibleNodes s ∧
        App.handleKeyDown s "ArrowDown" =
        App.mkHandled (App.setSelectedNode s n) true (Some (App.path n))) ∧
  (∃ n, n ∈ App.visibleNodes s ∧
        App.handleKeyDown s "ArrowUp" =
        App.mkHandled (App.setSelectedNode s n) true (Some (App.path n))).
Proof.
  intros H. unfold App.handleKeyDown.
  rewrite H, (visibleNodes_nonempty s ft H).
  pose proof (currentIndex_range s) as R.
  destruct (visibleNodes_head s ft H) as [rest V].
  assert (L : (1 <= Z.of_nat (length (App.visibleNodes s)))%Z)
    by (rewrite V; simpl; lia).
  cbn [String.eqb Ascii.eqb Bool.eqb]. cbv iota beta.
  set (ci := match App.selectedNode s with
             | Some sel => _ | None => _ end) in *.
  split.
  - destruct (index_in_range (App.visibleNodes s)
                (Z.min (ci + 1) (Z.of_nat (length (App.visibleNodes s)) - 1)))
      as (n & Hn & Hin); [lia|].
    exists n. split; [exact Hin|]. rewrite Hn. reflexivity.
  - destruct (index_in_range (App.visibleNodes s) (Z.max (ci - 1) 0))
      as (n & Hn & Hin); [lia|].
    exists n. split; [exact Hin|]. rewrite Hn. reflexivity.
Qed.

(** X8.  With a filtered tree to navigate, Down and Up always select a
    node of the visible list and ask to scroll to it (the index is
    clamped, never out of range); with nothing selected, both select the
    root. *)
Theorem arrowDown_arrowUp_stay_visible (s : App.Session) (ft : App.TreeNode) :
  App.filteredTree s = Some ft ->
  (∃ n, n ∈ App.visibleNodes s ∧
        App.handleKeyDown s "ArrowDown" =
        App.mkHandled (App.setSelectedNode s n) true (Some (App.path n))) ∧
  (∃ n, n ∈ App.visibleNodes s ∧
        App.handleKeyDown s "ArrowUp" =
        App.mkHandled (App.setSelectedNode s n) true (Some (App.path n))) ∧
  (App.selectedNode s = None ->
   App.handleKeyDown s "ArrowDown" =
     App.mkHandled (App.setSelectedNode s ft) true (Some (App.path ft)) ∧
   App.handleKeyDown s "ArrowUp" =
     App.mkHandled (App.setSelectedNode s ft) true (Some (App.path ft))).
Proof.
  intros H. destruct (arrow_moves s ft H) as [D U].
  split; [exact D|]. split; [exact U|].
  intros N. unfold App.handleKeyDown.
  rewrite H, (visibleNodes_nonempty s ft H), N.
  destruct (visibleNodes_head s ft H) as [rest V]. rewrite V.
  cbn [String.eqb Ascii.eqb Bool.eqb]. cbv iota beta.
  split.
  - replace (Z.min (-1 + 1) (Z.of_nat (length (ft :: rest)) - 1)) with 0%Z
      by (simpl length; lia).
    reflexivity.
  - reflexivity.
Qed.

(** Witness for X8: the expanded body with a div. *)
Lemma arrowDown_arrowUp_stay_visible_witness :
  App.filteredTree Samples.expandedBody = Some Samples.bodyWithDiv ∧
  ∃ n, n ∈ App.visibleNodes Samples.expandedBody ∧
       App.handleKeyDown Samples.expandedBody "ArrowDown" =
       App.mkHandled (App.setSelectedNode Samples.expandedBody n) true
         (Some (App.path n)).
Proof.
  split; [reflexivity|].
  apply (arrowDown_arrowUp_stay_visible Samples.expandedBody
           Samples.bodyWithDiv eq_refl).
Defined.

Lemma child_in_tree ft sel c j :
  sel ∈ Spec.nodes ft -> App.children sel !! j = Some c -> c ∈ Spec.nodes ft.
Proof.
  intros Hs Hc. apply nodes_nodeAt in Hs as [pos Hp].
  apply (nodeAt_nodes (pos ++ [j])). rewrite nodeAt_app, Hp. simpl.
  rewrite Hc. reflexivity.
Qed.

Lemma findParent_in_tree ft i p :
  App.findParent ft i None = Some p -> p ∈ Spec.nodes ft.
Proof.
  intros H. apply findParent_found in H as [[? _]|(pos & _ & _ & Hp & _)];
    [discriminate|].
  eapply nodeAt_nodes, Hp.
Qed.

Lemma selectAndScroll_frame s target :
  let s' := App.next (App.selectAndScroll s target) in
  App.tree s' = App.tree s ∧ App.showIslandsOnly s' = App.showIslandsOnly s ∧
  App.searchQuery s' = App.searchQuery s ∧
  App.expandedNodes s' = App.expandedNodes s ∧
  App.isLoading s' = App.isLoading s ∧ App.error s' = App.error s ∧
  App.selectedNode s' = match target with
                        | Some n => Some n
                        | None => App.selectedNode s
                        end.
Proof. destruct target; simpl; auto 10. Qed.

(** What every key leaves alone. *)
Lemma handleKeyDown_frame s key :
  let s' := App.next (App.handleKeyDown s key) in
  App.tree s' = App.tree s ∧ App.showIslandsOnly s' = App.showIslandsOnly s ∧
  App.searchQuery s' = App.searchQuery s ∧
  App.isLoading s' = App.isLoading s ∧ App.error s' = App.error s.
Proof.
  pose (F := fun s' : App.Session =>
    App.tree s' = App.tree s ∧ App.showIslandsOnly s' = App.showIslandsOnly s ∧
    App.searchQuery s' = App.searchQuery s ∧
    App.isLoading s' = App.isLoading s ∧ App.error s' = App.error s).
  change (F (App.next (App.handleKeyDown s key))).
  assert (Same : F s) by (unfold F; auto 10).
  assert (Tog : ∀ i, F (App.toggleNode i s)) by (intros i; exact Same).
  assert (Keep : ∀ target, F (App.next (App.selectAndScroll s target)))
    by (intros [n|]; exact Same).
  unfold App.handleKeyDown.
  destruct (App.filteredTree s) as [ft|]; [|exact Same].
  destruct (length (App.visibleNodes s) =? 0); [exact Same|].
  destruct (String.eqb key "ArrowDown"); [apply Keep|].
  destruct (String.eqb key "ArrowUp"); [apply Keep|].
  destruct (String.eqb key "ArrowRight").
  { destruct (App.selectedNode s) as [sel|]; [|exact Same].
    destruct (negb _ && _); [apply Tog|].
    destruct (_ && _); [apply Keep | exact Same]. }
  destruct (String.eqb key "ArrowLeft").
  { destruct (App.selectedNode s) as [sel|]; [|exact Same].
    destruct (_ && _); [apply Tog | apply Keep]. }
  destruct (String.eqb key "Enter");
    [destruct (App.selectedNode s); exact Same | exact Same].
Qed.

(** A selection inside the filtered tree stays inside it. *)
Lemma handleKeyDown_selection s ft key :
  App.filteredTree s = Some ft ->
  (∀ sel, App.selectedNode s = Some sel -> sel ∈ Spec.nodes ft) ->
  ∀ sel', App.selectedNode (App.next (App.handleKeyDown s key)) = Some sel' ->
          sel' ∈ Spec.nodes ft.
Proof.
  intros H Hsel.
  pose (Q := fun s' : App.Session =>
    ∀ sel', App.selectedNode s' = Some sel' -> sel' ∈ Spec.nodes ft).
  change (Q (App.next (App.handleKeyDown s key))).
  assert (Keep : ∀ target,
    (∀ n, target = Some n -> n ∈ Spec.nodes ft) ->
    Q (App.next (App.selectAndScroll s target))).
  { intros [n|] Ht; [|exact Hsel]. intros sel' [= <-]. auto. }
  assert (Same : Q s) by exact Hsel.
  assert (Tog : ∀ i, Q (App.toggleNode i s)) by (intros i; exact Same).
  unfold App.handleKeyDown. rewrite H, (visibleNodes_nonempty s ft H).
  destruct (String.eqb key "ArrowDown").
  { apply Keep. intros n Hn. unfold App.index in Hn.
    destruct (_ <? 0)%Z; [discriminate|].
    eapply (visibleNodes_in_tree s ft n H), list_elem_of_lookup; eauto. }
  destruct (String.eqb key "ArrowUp").
  { apply Keep. intros n Hn. unfold App.index in Hn.
    destruct (_ <? 0)%Z; [discriminate|].
    eapply (visibleNodes_in_tree s ft n H), list_elem_of_lookup; eauto. }
  destruct (String.eqb key "ArrowRight").
  { destruct (App.selectedNode s) as [sel|] eqn:Es; [|exact Same].
    destruct (negb _ && _); [apply Tog|].
    destruct (_ && _); [|exact Same].
    apply Keep. intros c Hc. eapply child_in_tree; eauto. }
  destruct (String.eqb key "ArrowLeft").
  { destruct (App.selectedNode s) as [sel|] eqn:Es; [|exact Same].
    destruct (_ && _); [apply Tog|].
    apply Keep. intros p Hp. eapply findParent_in_tree; eauto. }
  destruct (String.eqb key "Enter").
  { destruct (App.selectedNode s); exact Same. }
  exact Same.
Qed.

(** X9.  For every session and every key, a key press leaves the tree,
    the islands-only flag, the search text, the loading flag and the
    error as they were, and without a filtered tree it leaves the whole
    session as it was; and when there is a filtered tree and the
    selection is empty or a node of it, it is so after the key too. *)
Theorem handleKeyDown_selection_in_tree (s : App.Session) (key : string) :
  let s' := App.next (App.handleKeyDown s key) in
  (App.tree s' = App.tree s ∧ App.showIslandsOnly s' = App.showIslandsOnly s ∧
   App.searchQuery s' = App.searchQuery s ∧
   App.isLoading s' = App.isLoading s ∧ App.error s' = App.error s) ∧
  (App.filteredTree s = None -> s' = s) ∧
  (∀ ft, App.filteredTree s = Some ft ->
         (∀ sel, App.selectedNode s = Some sel -> sel ∈ Spec.nodes ft) ->
         ∀ sel', App.selectedNode s' = Some sel' -> sel' ∈ Spec.nodes ft).
Proof.
  cbv zeta. split; [apply handleKeyDown_frame|]. split.
  - intros H. rewrite (handleKeyDown_without_tree s key H). reflexivity.
  - intros ft H Hsel. exact (handleKeyDown_selection s ft key H Hsel).
Qed.

(** X10.  Right on a selected node that is collapsed and has children
    expands it and leaves the selection alone, and Left then undoes it:
    the session is again what it was.  Right on a selected node that is
    expanded and has children selects its first child and asks to scroll
    to it. *)
Theorem arrowRight_expand_or_descend
  (s : App.Session) (sel ft : App.TreeNode) :
  App.selectedNode s = Some sel ->
  App.filteredTree s = Some ft ->
  App.children sel ≠ [] ->
  let r := App.handleKeyDown s "ArrowRight" in
  ((App.id sel ∉ App.expandedNodes s) ->
   App.next r =
     App.setExpandedNodes s ({[ App.id sel ]} ∪ App.expandedNodes s) ∧
   App.scrolledTo r = None ∧
   App.next (App.handleKeyDown (App.next r) "ArrowLeft") = s) ∧
  (App.id sel ∈ App.expandedNodes s ->
   ∃ c, App.children sel !! 0 = Some c ∧
        r = App.mkHandled (App.setSelectedNode s c) true (Some (App.path c))).
Proof.
  intros Hsel Hft Hch r. subst r.
  destruct (App.children sel) as [|c cs] eqn:Ec; [done|].
  split.
  - intros Hn.
    assert (R : App.handleKeyDown s "ArrowRight" =
                App.mkHandled
                  (App.setExpandedNodes s
                     ({[ App.id sel ]} ∪ App.expandedNodes s)) true None).
    { unfold App.handleKeyDown.
      rewrite Hft, (visibleNodes_nonempty s ft Hft), Hsel, Ec.
      cbn [String.eqb Ascii.eqb Bool.eqb]. cbv iota beta.
      rewrite (bool_decide_eq_false_2 _ Hn). simpl.
      unfold App.toggleNode. rewrite (bool_decide_eq_false_2 _ Hn).
      reflexivity. }
    rewrite R. cbn [App.next App.scrolledTo].
    split; [reflexivity|]. split; [reflexivity|].
    set (s1 := App.setExpandedNodes s _).
    assert (Hin : App.id sel ∈ App.expandedNodes s1)
      by (apply elem_of_union_l, elem_of_singleton; reflexivity).
    unfold App.handleKeyDown.
    change (App.filteredTree s1) with (App.filteredTree s).
    rewrite Hft.
    rewrite (visibleNodes_nonempty s1 ft Hft).
    change (App.selectedNode s1) with (App.selectedNode s).
    rewrite Hsel, Ec.
    cbn [String.eqb Ascii.eqb Bool.eqb]. cbv iota beta.
    rewrite (bool_decide_eq_true_2 _ Hin). simpl.
    unfold App.toggleNode. rewrite (bool_decide_eq_true_2 _ Hin).
    destruct s as [t sl f q e l err]. unfold s1, App.setExpandedNodes. simpl.
    f_equal. simpl in Hn. apply set_eq. intros x.
    rewrite elem_of_difference, elem_of_union, elem_of_singleton.
    split; [tauto|]. intros Hx. split; [auto|]. intros ->. contradiction.
  - intros Hin. exists c. split; [reflexivity|].
    unfold App.handleKeyDown.
    rewrite Hft, (visibleNodes_nonempty s ft Hft), Hsel, Ec.
    cbn [String.eqb Ascii.eqb Bool.eqb]. cbv iota beta.
    rewrite (bool_decide_eq_true_2 _ Hin). reflexivity.
Qed.

(** Witness for X10: the body with a div, selected and collapsed. *)
Lemma arrowRight_expand_or_descend_witness :
  App.selectedNode (App.collapseAll Samples.expandedBody)
    = Some Samples.bodyWithDiv ∧
  App.next
    (App.handleKeyDown
       (App.next (App.handleKeyDown (App.collapseAll Samples.expandedBody)
                    "ArrowRight"))
       "ArrowLeft")
    = App.collapseAll Samples.expandedBody.
Proof.
  split; [reflexivity|].
  apply (arrowRight_expand_or_descend (App.collapseAll Samples.expandedBody)
           Samples.bodyWithDiv Samples.bodyWithDiv eq_refl eq_refl).
  - discriminate.
  - apply not_elem_of_empty.
Defined.

(** ** Looking up the parent *)

Lemma firstSome_None {A B} (f : A -> option B) (l : list A) :
  Spec.firstSome f l = None ↔ ∀ a, a ∈ l -> f a = None.
Proof.
  induction l as [|a l IH]; simpl.
  - split; [intros _ a Ha; by apply not_elem_of_nil in Ha | reflexivity].
  - destruct (f a) eqn:E.
    + split; [discriminate|]. intros H.
      rewrite (H a (list_elem_of_here _ _)) in E. discriminate.
    + rewrite IH. split.
      * intros H x Hx. apply elem_of_cons in Hx as [->|Hx]; auto.
      * intros H x Hx. apply H, list_elem_of_further, Hx.
Qed.

Lemma firstSome_at {A B} (f : A -> option B) (l : list A) :
  ∀ i x y, l !! i = Some x -> f x = Some y ->
           (∀ k x', k < i -> l !! k = Some x' -> f x' = None) ->
           Spec.firstSome f l = Some y.
Proof.
  induction l as [|a l IH]; intros i x y Hi Hx Hb; [done|].
  destruct i as [|i]; simpl in *.
  - injection Hi as ->. rewrite Hx. reflexivity.
  - rewrite (Hb 0 a); [|lia|reflexivity].
    apply (IH i x y Hi Hx). intros k x' Hk Hx'. apply (Hb (S k) x'); [lia|].
    exact Hx'.
Qed.

(** Below a node that is handed a parent, nothing is found exactly when
    the id does not occur. *)
Lemma findParent_below_None root :
  ∀ target q,
    App.findParent root target (Some q) = None ↔ target ∉ Spec.ids root.
Proof.
  induction root as [root IH] using TreeNode_forall_ind. intros target q.
  rewrite findParent_eq, ids_eq, not_elem_of_cons.
  destruct (String.eqb (App.id root) target) eqn:E.
  - apply String.eqb_eq in E. split; [discriminate | intros [? _]; congruence].
  - apply String.eqb_neq in E. rewrite firstSome_None.
    rewrite Forall_forall in IH. split.
    + intros H. split; [congruence|]. intros Hin.
      apply list_elem_of_In, in_flat_map in Hin as (c & Hc & Hx).
      apply list_elem_of_In in Hc, Hx.
      apply (IH c Hc target root) in Hx; [exact Hx | apply H, Hc].
    + intros [_ H] c Hc. apply (IH c Hc). intros Hx. apply H.
      apply list_elem_of_In, in_flat_map. exists c.
      split; apply list_elem_of_In; assumption.
Qed.

(** X11.  [findParent] finds nothing exactly when the id is the root's
    own or occurs nowhere in the tree. *)
Theorem findParent_None_iff (root : App.TreeNode) (targetId : string) :
  App.findParent root targetId None = None ↔
  targetId = App.id root ∨ targetId ∉ Spec.ids root.
Proof.
  rewrite findParent_eq, ids_eq, not_elem_of_cons.
  destruct (String.eqb (App.id root) targetId) eqn:E.
  - apply String.eqb_eq in E. split; auto.
  - apply String.eqb_neq in E. rewrite firstSome_None. split.
    + intros H. right. split; [congruence|]. intros Hin.
      apply list_elem_of_In, in_flat_map in Hin as (c & Hc & Hx).
      apply list_elem_of_In in Hc, Hx.
      apply (findParent_below_None c targetId root) in Hx; [exact Hx|].
      apply H, Hc.
    + intros [->|[_ H]] c Hc; [congruence|].
      apply findParent_below_None. intros Hx. apply H.
      apply list_elem_of_In, in_flat_map. exists c.
      split; apply list_elem_of_In; assumption.
Qed.

Lemma NoDup_flat_map_lookup {A B} (f : A -> list B) (l : list A) :
  NoDup (flat_map f l) ->
  ∀ i a, l !! i = Some a ->
         NoDup (f a) ∧
         ∀ k b x, k < i -> l !! k = Some b -> x ∈ f a -> x ∉ f b.
Proof.
  induction l as [|a0 l IH]; intros N i a Hi; [done|].
  simpl in N. apply NoDup_app in N as (N1 & N2 & N3).
  destruct i as [|i]; simpl in Hi.
  - injection Hi as ->. split; [exact N1|]. intros k b x Hk. lia.
  - destruct (IH N3 i a Hi) as [Na Hb]. split; [exact Na|].
    intros k b x Hk Hkb Hx. destruct k as [|k]; simpl in Hkb.
    + injection Hkb as ->. intros Hx'. apply (N2 x Hx').
      apply list_elem_of_In, in_flat_map. exists a.
      split; apply list_elem_of_In; [|exact Hx].
      apply list_elem_of_lookup. eauto.
    + apply (Hb k b x); [lia | exact Hkb | exact Hx].
Qed.

Lemma nodeAt_ids pos :
  ∀ t n, Spec.nodeAt t pos = Some n -> App.id n ∈ Spec.ids t.
Proof.
  intros t n H. unfold Spec.ids. apply list_elem_of_fmap_2.
  eapply nodeAt_nodes, H.
Qed.

Lemma findParent_unique pos :
  ∀ root parent p j c,
    NoDup (Spec.ids root) ->
    Spec.nodeAt root pos = Some p -> App.children p !! j = Some c ->
    App.findParent root (App.id c) parent = Some p.
Proof.
  induction pos as [|i pos IH]; intros root parent p j c N Hp Hc.
  - simpl in Hp. injection Hp as ->.
    rewrite findParent_eq. rewrite ids_eq in N.
    apply NoDup_cons in N as [Nr Nc].
    destruct (NoDup_flat_map_lookup _ _ Nc j c Hc) as [_ Hb].
    assert (Hcc : App.id c ∈ Spec.ids c) by (apply (nodeAt_ids [] c c eq_refl)).
    destruct (String.eqb (App.id p) (App.id c)) eqn:E.
    { apply String.eqb_eq in E. exfalso. apply Nr. rewrite E.
      apply list_elem_of_In, in_flat_map. exists c.
      split; apply list_elem_of_In; [|exact Hcc].
      apply list_elem_of_lookup. eauto. }
    apply (firstSome_at _ _ j c p Hc).
    + rewrite findParent_eq, String.eqb_refl. reflexivity.
    + intros k x' Hk Hx'. apply findParent_below_None.
      apply (Hb k x' (App.id c) Hk Hx' Hcc).
  - simpl in Hp. destruct (App.children root !! i) as [ci|] eqn:Hi; [|done].
    rewrite findParent_eq. rewrite ids_eq in N.
    apply NoDup_cons in N as [Nr Nc].
    destruct (NoDup_flat_map_lookup _ _ Nc i ci Hi) as [Ni Hb].
    assert (Hcc : App.id c ∈ Spec.ids ci).
    { apply (nodeAt_ids (pos ++ [j])). rewrite nodeAt_app, Hp. simpl.
      rewrite Hc. reflexivity. }
    destruct (String.eqb (App.id root) (App.id c)) eqn:E.
    { apply String.eqb_eq in E. exfalso. apply Nr. rewrite E.
      apply list_elem_of_In, in_flat_map. exists ci.
      split; apply list_elem_of_In; [|exact Hcc].
      apply list_elem_of_lookup. eauto. }
    apply (firstSome_at _ _ i ci p Hi).
    + apply (IH ci (Some root) p j c Ni Hp Hc).
    + intros k x' Hk Hx'. apply findParent_below_None.
      apply (Hb k x' (App.id c) Hk Hx' Hcc).
Qed.

(** X12.  In a tree whose ids are pairwise distinct, [findParent] handed
    the id of a child returns the node the child hangs under. *)
Theorem findParent_direct_parent
  (root p c : App.TreeNode) (pos : list nat) (j : nat) :
  NoDup (Spec.ids root) ->
  Spec.nodeAt root pos = Some p -> App.children p !! j = Some c ->
  App.findParent root (App.id c) None = Some p.
Proof. intros N Hp Hc. exact (findParent_unique pos root None p j c N Hp Hc). Qed.

(** Witness for X12: the island under the body. *)
Lemma findParent_direct_parent_witness :
  NoDup (Spec.ids Samples.bodyWithIsland) ∧
  App.findParent Samples.bodyWithIsland "node-1" None
    = Some Samples.bodyWithIsland.
Proof.
  assert (N : NoDup (Spec.ids Samples.bodyWithIsland)).
  { apply (bool_decide_unpack _). vm_compute. exact I. }
  split; [exact N|].
  apply (findParent_direct_parent Samples.bodyWithIsland
           Samples.bodyWithIsland (Samples.island "node-1" [] 1 "0") [] 0 N);
    reflexivity.
Defined.

(** ** Fetching the tree *)

(** X13.  However a fetch ends, the session is no longer loading and
    the selection, the filter flag and the search text are what they
    were.  Either no error is set, and then the script delivered a tree,
    which is now the session's tree with its auto-expand set (the root
    included) as the expanded set; or an error is set, and then the tree
    and the expanded set are untouched. *)
Theorem fetchTree_outcome
  (tabId : option nat) (script : App.ScriptOutcome) (s : App.Session) :
  let s' := App.fetchTree tabId script s in
  App.isLoading s' = false ∧
  App.selectedNode s' = App.selectedNode s ∧
  App.showIslandsOnly s' = App.showIslandsOnly s ∧
  App.searchQuery s' = App.searchQuery s ∧
  match App.error s' with
  | None =>
      ∃ t, script = App.Resolved (Some t) ∧ App.tree s' = Some t ∧
           App.expandedNodes s' = Spec.autoExpandSet t ∧
           App.id t ∈ App.expandedNodes s'
  | Some _ =>
      App.tree s' = App.tree s ∧ App.expandedNodes s' = App.expandedNodes s
  end.
Proof.
  cbv zeta. unfold App.fetchTree.
  destruct tabId as [[|n]|]; [simpl; auto 10| |simpl; auto 10].
  destruct script as [m|[t|]]; simpl; [auto 10| |auto 10].
  repeat (split; [reflexivity|]). exists t.
  repeat (split; [reflexivity|]). apply collectExpandedNodes_self.
Qed.

(** ** More on the tree builder *)

Lemma toString_inj i j : JS.toString i = JS.toString j -> i = j.
Proof.
  intros H. pose proof (Number_toString i) as Hi.
  rewrite H, Number_toString in Hi. congruence.
Qed.

#[local] Instance nodeName_inj : Inj (=) (=) Spec.nodeName.
Proof.
  intros i j H. unfold Spec.nodeName in H.
  assert (E : ∀ x, "node-" +:+ x =
                   String "n" (String "o" (String "d" (String "e"
                     (String "-" x))))) by reflexivity.
  rewrite !E in H. apply toString_inj. congruence.
Qed.

Lemma elements_eq e :
  Spec.elements e = e :: flat_map Spec.elements (Dom.children e).
Proof. unfold Spec.elements at 1. rewrite descendants_eq. reflexivity. Qed.

Section BuilderMore.

Variable JSON_parse : string -> JS.Completion JS.JSON.

Local Abbreviation buildTree := (App.buildTree JSON_parse).
Local Abbreviation forEachChild := (Spec.forEachChild JSON_parse).

Lemma forEachChild_cons c l d p i n :
  forEachChild (c :: l) d p i n =
  (fst (buildTree c (d + 1) (App.childPath p i) n)
     :: fst (forEachChild l d p (S i)
               (snd (buildTree c (d + 1) (App.childPath p i) n))),
   snd (forEachChild l d p (S i)
          (snd (buildTree c (d + 1) (App.childPath p i) n)))).
Proof.
  simpl. destruct (buildTree c (d + 1) (App.childPath p i) n) as [k n1].
  simpl. destruct (forEachChild l d p (S i) n1). reflexivity.
Qed.


(** The counter runs through the elements in document order. *)
Lemma buildTree_ids e :
  ∀ d p n,
    Spec.ids (fst (buildTree e d p n)) =
      map Spec.nodeName (seq n (length (Spec.elements e))) ∧
    snd (buildTree e d p n) = n + length (Spec.elements e).
Proof.
  induction e as [e IH] using Element_forall_ind. intros d p n.
  rewrite buildTree_eq, ids_eq, elements_eq. cbn [fst snd length seq map].
  change (App.id (Spec.shallowNode JSON_parse e d p n ?k))
    with (Spec.nodeName n).
  change (App.children (Spec.shallowNode JSON_parse e d p n ?k)) with k.
  assert (G : ∀ i m,
    flat_map Spec.ids (fst (forEachChild (Dom.children e) d p i m)) =
      map Spec.nodeName
        (seq m (length (flat_map Spec.elements (Dom.children e)))) ∧
    snd (forEachChild (Dom.children e) d p i m) =
      m + length (flat_map Spec.elements (Dom.children e))).
  { induction IH as [|c ch Hc _ IHl]; intros i m.
    - simpl. split; [reflexivity | lia].
    - rewrite forEachChild_cons. cbn [fst snd flat_map].
      destruct (Hc (d + 1) (App.childPath p i) m) as [Hc1 Hc2].
      destruct (IHl (S i) (snd (buildTree c (d + 1) (App.childPath p i) m)))
        as [Hl1 Hl2].
      rewrite Hc1, Hl1, Hl2, Hc2, length_app, seq_app, map_app.
      split; [reflexivity | lia]. }
  destruct (G 0 (S n)) as [G1 G2]. rewrite G1, G2.
  split; [reflexivity | lia].
Qed.

(** X14.  One traversal numbers the nodes in document order: the ids of
    the tree, in document order, are [node-0], [node-1], ... up to the
    number of elements, so the tree has one node per element and its ids
    are pairwise distinct. *)
Theorem buildTreeInPage_ids (body : Dom.Element) :
  let t := App.buildTreeInPage JSON_parse body in
  Spec.ids t = map Spec.nodeName (seq 0 (length (Spec.elements body))) ∧
  length (Spec.nodes t) = length (Spec.elements body) ∧
  NoDup (Spec.ids t).
Proof.
  cbv zeta. unfold App.buildTreeInPage.
  destruct (buildTree_ids body 0 "" 0) as [H _].
  split; [exact H|]. split.
  - apply (f_equal (@length string)) in H. unfold Spec.ids in H.
    rewrite !length_map, length_seq in H. exact H.
  - rewrite H. apply (NoDup_fmap_2 Spec.nodeName), NoDup_seq.
Qed.

Lemma buildTree_NoDup e d p n : NoDup (Spec.ids (fst (buildTree e d p n))).
Proof.
  destruct (buildTree_ids e d p n) as [H _]. rewrite H.
  apply (NoDup_fmap_2 Spec.nodeName), NoDup_seq.
Qed.




End BuilderMore.

Lemma map_Number_toString pos :
  map JS.Number (map JS.toString pos) = map Some pos.
Proof.
  induction pos as [|i pos IH]; simpl; [reflexivity|].
  rewrite Number_toString, IH. reflexivity.
Qed.

Lemma map_Some_inj {A} (l1 l2 : list A) : map Some l1 = map Some l2 -> l1 = l2.
Proof.
  revert l2. induction l1 as [|a l1 IH]; intros [|b l2] H; simpl in H;
    try discriminate; [reflexivity|].
  injection H as -> H. f_equal. apply IH, H.
Qed.

(** Different positions have different paths. *)
Lemma extendPath_inj pos1 pos2 :
  Spec.extendPath "" pos1 = Spec.extendPath "" pos2 -> pos1 = pos2.
Proof.
  intros H. apply (f_equal Spec.segments) in H.
  rewrite !segments_extendPath in H. simpl in H.
  apply (f_equal (map JS.Number)) in H. rewrite !map_Number_toString in H.
  apply map_Some_inj, H.
Qed.

Lemma filtered_ids_NoDup t ft :
  NoDup (Spec.ids t) -> App.filter t = Some ft -> NoDup (Spec.ids ft).
Proof.
  intros N H. refine (sublist_NoDup _ _ N _).
  unfold Spec.ids. rewrite (ids_shallow (Spec.nodes ft)), (ids_shallow (Spec.nodes t)).
  apply (fmap_sublist App.id), shallow_nodes_sublist, H.
Qed.

Section BuiltTrees.

Variable JSON_parse : string -> JS.Completion JS.JSON.
Variable body : Dom.Element.

Local Abbreviation built := (App.buildTreeInPage JSON_parse body).

(** X16.  What a node of a built tree carries: it is an island exactly
    when its tag name is [astro-island]; a node that is no island has
    no component name, directive, props or framework; an island always
    has a directive that is not empty and a component name that is
    truthy. *)
Theorem buildTree_metadata (pos : list nat) (n : App.TreeNode) :
  Spec.nodeAt built pos = Some n ->
  App.isAstroIsland n = String.eqb (App.tagName n) "astro-island" ∧
  (App.isAstroIsland n = false ->
   App.componentName n = None ∧ App.clientDirective n = None ∧
   App.props n = None ∧ App.framework n = None) ∧
  (App.isAstroIsland n = true ->
   JS.truthy (App.componentName n) = true ∧
   ∃ d, App.clientDirective n = Some d ∧ d ≠ "").
Proof.
  unfold App.buildTreeInPage. intros H.
  apply buildTree_nodeAt in H as (e & m & _ & ->).
  rewrite buildTree_eq. unfold Spec.shallowNode. cbn [fst].
  cbn [App.isAstroIsland App.tagName App.componentName App.clientDirective
       App.props App.framework].
  split; [reflexivity|].
  destruct (String.eqb (JS.toLowerCase (Dom.tagName e)) "astro-island").
  - split; [discriminate|]. intros _. split.
    + unfold App.componentNameOf.
      destruct (JS.truthy (App.optsName JSON_parse _)) eqn:T; [exact T|].
      simpl. destruct (App.matchUrl _) as [[|c g]|]; reflexivity.
    + eexists. split; [reflexivity|].
      destruct (Dom.getAttribute (Dom.attributes e) "client") as [[|c d]|];
        discriminate.
  - split; [auto | discriminate].
Qed.

(** X17.  Paths identify positions: two nodes of a built tree that have
    the same path sit at the same position, and are the same node. *)
Theorem built_paths_unique (pos1 pos2 : list nat) (n1 n2 : App.TreeNode) :
  Spec.nodeAt built pos1 = Some n1 ->
  Spec.nodeAt built pos2 = Some n2 ->
  App.path n1 = App.path n2 ->
  pos1 = pos2 ∧ n1 = n2.
Proof.
  unfold App.buildTreeInPage. intros H1 H2 E.
  pose proof H1 as H1'. pose proof H2 as H2'.
  apply buildTree_nodeAt in H1' as (e1 & m1 & _ & ->).
  apply buildTree_nodeAt in H2' as (e2 & m2 & _ & ->).
  rewrite !buildTree_path in E. apply extendPath_inj in E. subst pos2.
  split; [reflexivity | congruence].
Qed.

(** X18.  In a built tree, and in what the islands-only filter leaves
    of it, [findParent] handed the id of any node below the root returns
    the node it hangs under. *)
Theorem built_findParent
  (ft p c : App.TreeNode) (pos : list nat) (j : nat) :
  ft = built ∨ App.filter built = Some ft ->
  Spec.nodeAt ft pos = Some p -> App.children p !! j = Some c ->
  App.findParent ft (App.id c) None = Some p.
Proof.
  intros Hft Hp Hc.
  assert (N : NoDup (Spec.ids ft)).
  { destruct Hft as [->|Hf].
    - apply buildTree_NoDup.
    - eapply filtered_ids_NoDup; [apply buildTree_NoDup | exact Hf]. }
  exact (findParent_unique pos ft None p j c N Hp Hc).
Qed.

End BuiltTrees.

(** Witness for X16: the island of the sample page. *)
Lemma buildTree_metadata_witness :
  Spec.nodeAt
    (App.buildTreeInPage Samples.sampleParse
       (Highlighter.body Samples.islandPage)) [0]
    = Some Samples.zeroIslandNode ∧
  App.isAstroIsland Samples.zeroIslandNode
    = String.eqb (App.tagName Samples.zeroIslandNode) "astro-island".
Proof.
  split; [reflexivity|].
  exact (proj1 (buildTree_metadata Samples.sampleParse
                  (Highlighter.body Samples.islandPage) [0]
                  Samples.zeroIslandNode eq_refl)).
Defined.

(** Witness for X17: the island of the sample page, found twice. *)
Lemma built_paths_unique_witness :
  Spec.nodeAt
    (App.buildTreeInPage Samples.sampleParse
       (Highlighter.body Samples.islandPage)) [0]
    = Some Samples.zeroIslandNode ∧
  ([0] = [0] ∧ Samples.zeroIslandNode = Samples.zeroIslandNode).
Proof.
  split; [reflexivity|].
  apply (built_paths_unique Samples.sampleParse
           (Highlighter.body Samples.islandPage) [0] [0]);
    reflexivity.
Defined.

(** Witness for X18: the div under the island of the sample page. *)
Lemma built_findParent_witness :
  Spec.nodeAt
    (App.buildTreeInPage Samples.sampleParse
       (Highlighter.body Samples.islandPage)) [0]
    = Some Samples.zeroIslandNode ∧
  App.findParent
    (App.buildTreeInPage Samples.sampleParse
       (Highlighter.body Samples.islandPage)) "node-2" None
    = Some Samples.zeroIslandNode.
Proof.
  split; [reflexivity|].
  apply (built_findParent Samples.sampleParse
           (Highlighter.body Samples.islandPage) _
           Samples.zeroIslandNode (Samples.plain "node-2" "div" [] 2 "0.0")
           [0] 0); [left|..]; reflexivity.
Defined.

(** ** The fallback pattern for component names *)

Lemma append_cons c s t : String c s +:+ t = String c (s +:+ t).
Proof. reflexivity. Qed.

Lemma append_nil_l t : EmptyString +:+ t = t.
Proof. reflexivity. Qed.

Lemma append_nil_r s : s +:+ EmptyString = s.
Proof. induction s as [|c s IH]; [reflexivity|]. rewrite append_cons, IH. reflexivity. Qed.

Lemma append_assoc s t u : (s +:+ t) +:+ u = s +:+ (t +:+ u).
Proof.
  induction s as [|c s IH]; [reflexivity|]. rewrite !append_cons, IH.
  reflexivity.
Qed.

Lemma takeS_dropS k : ∀ s, JS.takeS k s +:+ JS.dropS k s = s.
Proof.
  induction k as [|k IH]; intros [|c s]; simpl; try reflexivity.
  rewrite append_cons, IH. reflexivity.
Qed.

Lemma lazySegment_Some s :
  ∀ captured g,
    App.lazySegment captured s = Some g ->
    ∃ k, g = captured +:+ JS.takeS k s ∧ Spec.noSlash (JS.takeS k s) = true.
Proof.
  induction s as [|c s IH]; intros captured g H; simpl in H.
  - injection H as <-. exists 0. rewrite append_nil_r. auto.
  - destruct (Ascii.eqb c "." && negb (String.eqb s "") && App.noDot s).
    { injection H as <-. exists 0. rewrite append_nil_r. auto. }
    destruct (Ascii.eqb c "/") eqn:E; [discriminate|].
    apply IH in H as (k & -> & Hk). exists (S k). simpl.
    rewrite E, Hk, append_assoc. auto.
Qed.

Lemma matchAfterSlash_Some s g :
  App.matchAfterSlash s = Some g ->
  g ≠ EmptyString ∧ Spec.noSlash g = true ∧ ∃ post, s = g +:+ post.
Proof.
  destruct s as [|c s]; simpl; [discriminate|].
  destruct (Ascii.eqb c "/") eqn:E; [discriminate|].
  intros H. apply lazySegment_Some in H as (k & -> & Hk).
  rewrite append_cons, append_nil_l. split; [discriminate|]. split.
  - simpl. rewrite E, Hk. reflexivity.
  - exists (JS.dropS k s). rewrite append_cons, takeS_dropS. reflexivity.
Qed.

Lemma includes_cons c s needle :
  JS.includes (String c s) needle =
  JS.startsWith (String c s) needle || JS.includes s needle.
Proof. reflexivity. Qed.

Lemma matchUrl_no_slash url :
  JS.includes url "/" = false -> App.matchUrl url = None.
Proof.
  induction url as [|c url IH]; intros H; [reflexivity|].
  rewrite includes_cons in H. apply orb_false_iff in H as [H1 H2].
  cbn [JS.startsWith] in H1.
  replace (JS.startsWith url "") with true in H1 by (destruct url; reflexivity).
  rewrite andb_true_r, Ascii.eqb_sym in H1.
  simpl. rewrite H1. apply IH, H2.
Qed.

(** X19.  What the fallback pattern captures is never empty, has no
    slash in it and stands in the URL right after a slash; a URL without
    a slash gives no match. *)
Theorem matchUrl_captures (url : string) :
  (∀ g, App.matchUrl url = Some g ->
        g ≠ EmptyString ∧ Spec.noSlash g = true ∧
        ∃ pre post, url = pre +:+ "/" +:+ g +:+ post) ∧
  (JS.includes url "/" = false -> App.matchUrl url = None).
Proof.
  split; [|apply matchUrl_no_slash].
  induction url as [|c url IH]; intros g H; simpl in H; [discriminate|].
  destruct (Ascii.eqb c "/") eqn:E.
  - apply Ascii.eqb_eq in E as ->.
    destruct (App.matchAfterSlash url) as [g'|] eqn:M.
    + injection H as <-.
      apply matchAfterSlash_Some in M as (Hg & Hs & post & ->).
      split; [exact Hg|]. split; [exact Hs|]. exists EmptyString, post.
      reflexivity.
    + destruct (IH g H) as (Hg & Hs & pre & post & ->).
      split; [exact Hg|]. split; [exact Hs|].
      exists (String "/" pre), post. reflexivity.
  - destruct (IH g H) as (Hg & Hs & pre & post & ->).
    split; [exact Hg|]. split; [exact Hs|].
    exists (String c pre), post. reflexivity.
Qed.

Lemma extensionThenEnd_other c s :
  Ascii.eqb c "." = false -> App.extensionThenEnd (String c s) = false.
Proof. intros H. simpl. rewrite H. reflexivity. Qed.

(** Inside a directory name without a dot the lazy group runs into the
    next slash and gives up. *)
Lemma lazySegment_blocked d :
  ∀ captured rest,
    App.noDot d = true ->
    App.lazySegment captured (d +:+ "/" +:+ rest) = None.
Proof.
  induction d as [|c d IH]; intros captured rest H.
  - rewrite append_nil_l, append_cons. cbn [App.lazySegment].
    rewrite extensionThenEnd_other by reflexivity. reflexivity.
  - simpl in H. apply andb_true_iff in H as [Hc Hd].
    apply negb_true_iff in Hc. rewrite append_cons. cbn [App.lazySegment].
    rewrite (extensionThenEnd_other _ _ Hc).
    destruct (Ascii.eqb c "/"); [reflexivity | apply IH, Hd].
Qed.

(** Through a name without dot or slash the lazy group runs up to the
    tail, if the tail is an extension or the end. *)
Lemma lazySegment_stem stem :
  ∀ captured tail,
    App.noDot stem = true -> Spec.noSlash stem = true ->
    App.extensionThenEnd tail = true ->
    App.lazySegment captured (stem +:+ tail) = Some (captured +:+ stem).
Proof.
  induction stem as [|c stem IH]; intros captured tail Hd Hs Ht.
  - rewrite append_nil_l, append_nil_r.
    destruct tail; cbn [App.lazySegment]; rewrite Ht; reflexivity.
  - simpl in Hd, Hs. apply andb_true_iff in Hd as [Hc Hd].
    apply andb_true_iff in Hs as [Hc' Hs].
    apply negb_true_iff in Hc, Hc'. rewrite append_cons.
    cbn [App.lazySegment]. rewrite (extensionThenEnd_other _ _ Hc), Hc'.
    rewrite (IH _ tail Hd Hs Ht), append_assoc. reflexivity.
Qed.

Lemma matchUrl_dir dir :
  ∀ stem tail,
    App.noDot dir = true -> App.noDot stem = true ->
    Spec.noSlash stem = true -> stem ≠ EmptyString ->
    App.extensionThenEnd tail = true ->
    App.matchUrl (dir +:+ "/" +:+ stem +:+ tail) = Some stem.
Proof.
  assert (Last : ∀ stem tail,
    App.noDot stem = true -> Spec.noSlash stem = true -> stem ≠ EmptyString ->
    App.extensionThenEnd tail = true ->
    App.matchAfterSlash (stem +:+ tail) = Some stem).
  { intros [|c stem] tail Hd Hs Hn Ht; [done|].
    simpl in Hd, Hs. apply andb_true_iff in Hd as [_ Hd].
    apply andb_true_iff in Hs as [Hc Hs]. apply negb_true_iff in Hc.
    rewrite append_cons. cbn [App.matchAfterSlash]. rewrite Hc.
    rewrite (lazySegment_stem stem _ tail Hd Hs Ht). reflexivity. }
  induction dir as [|c dir IH]; intros stem tail Hdir Hd Hs Hn Ht.
  - rewrite append_nil_l, append_cons, append_nil_l. cbn [App.matchUrl].
    cbn [Ascii.eqb Bool.eqb]. cbv iota.
    rewrite (Last stem tail Hd Hs Hn Ht). reflexivity.
  - simpl in Hdir. apply andb_true_iff in Hdir as [Hc Hdir].
    rewrite append_cons. cbn [App.matchUrl].
    destruct (Ascii.eqb c "/") eqn:E; [|apply IH; assumption].
    assert (B : App.matchAfterSlash (dir +:+ "/" +:+ stem +:+ tail) = None).
    { destruct dir as [|c' dir'].
      - reflexivity.
      - simpl in Hdir. apply andb_true_iff in Hdir as [_ Hdir'].
        rewrite append_cons. cbn [App.matchAfterSlash].
        destruct (Ascii.eqb c' "/"); [reflexivity|].
        apply lazySegment_blocked, Hdir'. }
    rewrite B. apply IH; assumption.
Qed.

(** X20.  Where the fallback meets its purpose: for a URL [dir/stem] or
    [dir/stem.ext] in which neither the directories nor the stem have a
    dot, the stem has no slash and is not empty, and the extension is not
    empty and has no dot, the pattern captures the stem. *)
Theorem matchUrl_stem (dir stem ext : string) :
  App.noDot dir = true -> App.noDot stem = true ->
  Spec.noSlash stem = true -> stem ≠ EmptyString ->
  App.matchUrl (dir +:+ "/" +:+ stem) = Some stem ∧
  (App.noDot ext = true -> ext ≠ EmptyString ->
   App.matchUrl (dir +:+ "/" +:+ stem +:+ "." +:+ ext) = Some stem).
Proof.
  intros Hdir Hd Hs Hn. split.
  - rewrite <- (append_nil_r stem) at 1.
    apply matchUrl_dir; auto.
  - intros He Hne. apply matchUrl_dir; auto.
    rewrite append_cons, append_nil_l. cbn [App.extensionThenEnd].
    rewrite He. destruct ext; [done | reflexivity].
Qed.

(** Witness for X19: a component URL of the usual form. *)
Lemma matchUrl_captures_witness :
  App.matchUrl "/src/components/Counter.jsx" = Some "Counter" ∧
  "Counter" ≠ EmptyString.
Proof.
  split; [reflexivity|].
  apply (proj1 (matchUrl_captures "/src/components/Counter.jsx") "Counter").
  reflexivity.
Defined.

(** Witness for X20: the same URL, taken apart. *)
Lemma matchUrl_stem_witness :
  App.noDot "/src/components" = true ∧ App.noDot "Counter" = true ∧
  Spec.noSlash "Counter" = true ∧ "Counter" ≠ EmptyString ∧
  App.matchUrl ("/src/components" +:+ "/" +:+ "Counter") = Some "Counter".
Proof.
  repeat (split; [reflexivity || discriminate|]).
  apply (matchUrl_stem "/src/components" "Counter" "jsx");
    reflexivity || discriminate.
Defined.

Section FallbackName.

Variable JSON_parse : string -> JS.Completion JS.JSON.

(** X21.  With options that do not parse, an island whose component URL
    has the form [dir/stem.ext] of X20 gets the stem as its component
    name, and an island without component URL, or with one that has no
    slash, gets the placeholder [Island]. *)
Theorem malformed_opts_component_name
  (e : Dom.Element) (d n : nat) (p o : string) :
  JS.toLowerCase (Dom.tagName e) = "astro-island" ->
  Dom.getAttribute (Dom.attributes e) "opts" = Some o ->
  JSON_parse o = JS.Throw ->
  let name := App.componentName (fst (App.buildTree JSON_parse e d p n)) in
  (∀ dir stem ext,
     Dom.getAttribute (Dom.attributes e) "component-url"
       = Some (dir +:+ "/" +:+ stem +:+ "." +:+ ext) ->
     App.noDot dir = true -> App.noDot stem = true ->
     Spec.noSlash stem = true -> stem ≠ EmptyString ->
     App.noDot ext = true -> ext ≠ EmptyString ->
     name = Some (JS.JStr stem)) ∧
  (∀ url,
     Dom.orElse (Dom.getAttribute (Dom.attributes e) "component-url") "" = url ->
     JS.includes url "/" = false ->
     name = Some (JS.JStr "Island")).
Proof.
  intros Ht Ho Hp name. subst name.
  rewrite (malformed_opts_name JSON_parse e d p n o Ht Ho Hp). split.
  - intros dir stem ext Hu Hdir Hd Hs Hn He Hne. rewrite Hu.
    assert (U : Dom.orElse (Some (dir +:+ "/" +:+ stem +:+ "." +:+ ext)) ""
                = dir +:+ "/" +:+ stem +:+ "." +:+ ext).
    { destruct dir; reflexivity. }
    rewrite U, (matchUrl_dir dir stem ("." +:+ ext) Hdir Hd Hs Hn).
    + destruct stem; [done | reflexivity].
    + rewrite append_cons, append_nil_l. cbn [App.extensionThenEnd].
      rewrite He. destruct ext; [done | reflexivity].
  - intros url Hu Hi. rewrite Hu, (matchUrl_no_slash url Hi). reflexivity.
Qed.

End FallbackName.

(** Witness for X21: the island with broken options and a component
    URL of the usual form. *)
Lemma malformed_opts_component_name_witness :
  JS.toLowerCase (Dom.tagName Samples.brokenOptsIsland) = "astro-island" ∧
  Dom.getAttribute (Dom.attributes Samples.brokenOptsIsland) "opts"
    = Some "{bad" ∧
  Samples.sampleParse "{bad" = JS.Throw ∧
  App.componentName
    (fst (App.buildTree Samples.sampleParse Samples.brokenOptsIsland 0 "" 0))
    = Some (JS.JStr "Counter").
Proof.
  repeat (split; [reflexivity|]).
  apply (proj1 (malformed_opts_component_name Samples.sampleParse
                  Samples.brokenOptsIsland 0 0 "" "{bad"
                  eq_refl eq_refl eq_refl)
           "/src/components" "Counter" "jsx");
    reflexivity || discriminate.
Defined.

(** ** More on the highlighter *)

Lemma findVisibleChild_eq el :
  Highlighter.findVisibleChild el =
  if Highlighter.sized (Dom.rect el) then Some el
  else Spec.firstSome Highlighter.findVisibleChild (Dom.children el).
Proof.
  destruct el as [tg attrs r ch]. cbn [Highlighter.findVisibleChild].
  cbn [Dom.rect Dom.children]. destruct (Highlighter.sized r); [reflexivity|].
  induction ch as [|c ch IH]; simpl; [reflexivity|].
  destruct (Highlighter.findVisibleChild c); [reflexivity | exact IH].
Qed.

Lemma find_app {A} (f : A -> bool) (l1 l2 : list A) :
  List.find f (l1 ++ l2) =
  match List.find f l1 with
  | Some x => Some x
  | None => List.find f l2
  end.
Proof.
  induction l1 as [|a l1 IH]; simpl; [reflexivity|].
  destruct (f a); [reflexivity | exact IH].
Qed.

Lemma findVisibleChild_find el :
  Highlighter.findVisibleChild el =
  List.find (fun d => Highlighter.sized (Dom.rect d)) (Spec.elements el).
Proof.
  induction el as [el IH] using Element_forall_ind.
  rewrite findVisibleChild_eq, elements_eq. simpl.
  destruct (Highlighter.sized (Dom.rect el)); [reflexivity|].
  induction IH as [|c ch Hc _ IHl]; cbn [flat_map Spec.firstSome];
    [reflexivity|].
  rewrite find_app, <- Hc.
  destruct (Highlighter.findVisibleChild c); [reflexivity | exact IHl].
Qed.

(** X22.  [findVisibleChild] returns the first element in document
    order, the element itself included, whose rectangle has a positive
    width and height, and nothing exactly when there is none. *)
Theorem findVisibleChild_first_sized (el : Dom.Element) :
  Highlighter.findVisibleChild el =
    List.find (fun d => Highlighter.sized (Dom.rect d)) (Spec.elements el) ∧
  (∀ v, Highlighter.findVisibleChild el = Some v ->
        v ∈ Spec.elements el ∧ Highlighter.sized (Dom.rect v) = true) ∧
  (Highlighter.findVisibleChild el = None ↔
   ∀ d, d ∈ Spec.elements el -> Highlighter.sized (Dom.rect d) = false).
Proof.
  split; [apply findVisibleChild_find|]. rewrite findVisibleChild_find. split.
  - intros v H. apply find_some in H as [H1 H2].
    split; [apply list_elem_of_In, H1 | exact H2].
  - split.
    + intros H d Hd. apply list_elem_of_In in Hd.
      exact (find_none _ _ H d Hd).
    + intros H. destruct (List.find _ _) as [v|] eqn:F; [|reflexivity].
      apply find_some in F as [F1 F2]. apply list_elem_of_In in F1.
      rewrite (H v F1) in F2. discriminate.
Qed.

Section HighlightAgain.

Variable JSON_parse : string -> JS.Completion JS.JSON.

(** X23.  There is one overlay and the last call decides it: a highlight
    after a highlight gives what the second alone gives, a clear after a
    highlight gives what a clear alone gives, and clearing twice is
    clearing once. *)
Theorem highlight_last_call_wins
  (tabId : option nat) (p q : string) (page : Highlighter.Page) :
  Highlighter.highlightElement JSON_parse tabId p
    (Highlighter.highlightElement JSON_parse tabId q page)
    = Highlighter.highlightElement JSON_parse tabId p page ∧
  Highlighter.clearHighlight tabId
    (Highlighter.highlightElement JSON_parse tabId q page)
    = Highlighter.clearHighlight tabId page ∧
  Highlighter.clearHighlight tabId (Highlighter.clearHighlight tabId page)
    = Highlighter.clearHighlight tabId page.
Proof.
  destruct page as [b o v].
  unfold Highlighter.highlightElement, Highlighter.clearHighlight,
    Highlighter.highlightInPage.
  destruct (Highlighter.hasTab tabId); [|auto].
  cbn [Highlighter.body Highlighter.inView].
  destruct (Highlighter.resolvePath b q) as [eq|];
    [destruct (Highlighter.zeroSized (Highlighter.boundsOf eq))|];
    cbn [Highlighter.body Highlighter.inView]; auto.
Qed.

End HighlightAgain.

(** X24.  Scrolling to a path that resolves always scrolls to some
    element at or below the resolved one and leaves the overlay alone:
    for an island with children it is the first sized element of its
    subtree, or the island itself when nothing there is sized; for any
    other element it is the element itself. *)
Theorem scroll_target (path : string) (page : Highlighter.Page)
  (e : Dom.Element) :
  Highlighter.resolvePath (Highlighter.body page) path = Some e ->
  let after := Highlighter.scrollInPage path page in
  Highlighter.overlay after = Highlighter.overlay page ∧
  ∃ x, Highlighter.inView after = Some x ∧ x ∈ Spec.elements e ∧
       (if String.eqb (JS.toLowerCase (Dom.tagName e)) "astro-island"
           && (0 <? length (Dom.children e))
        then x = default e (List.find (fun d => Highlighter.sized (Dom.rect d))
                              (Spec.elements e))
        else x = e).
Proof.
  intros R after. subst after. unfold Highlighter.scrollInPage. rewrite R.
  cbn [Highlighter.overlay Highlighter.inView]. split; [reflexivity|].
  eexists. split; [reflexivity|].
  assert (Self : e ∈ Spec.elements e) by apply list_elem_of_here.
  destruct (_ && _); [|auto].
  rewrite findVisibleChild_find.
  destruct (List.find _ _) as [v|] eqn:F; simpl; [|auto].
  split; [|reflexivity]. apply find_some in F as [F _].
  apply list_elem_of_In, F.
Qed.

(** Witness for X24: the island of the sample page. *)
Lemma scroll_target_witness :
  Highlighter.resolvePath (Highlighter.body Samples.islandPage) "0"
    = Some Samples.zeroIsland ∧
  Highlighter.overlay (Highlighter.scrollInPage "0" Samples.islandPage)
    = Highlighter.overlay Samples.islandPage.
Proof.
  split; [reflexivity|].
  apply (scroll_target "0" Samples.islandPage Samples.zeroIsland eq_refl).
Defined.

Lemma descend_None l : fold_left Highlighter.descend l None = None.
Proof. induction l as [|i l IH]; simpl; [reflexivity | exact IH]. Qed.

(** X25.  Resolution goes index by index: the path of a child resolves
    to child [i] of what the parent's path resolves to, and to nothing
    when the parent's path resolves to nothing or has no such child. *)
Theorem resolvePath_childPath (body : Dom.Element) (p : string) (i : nat) :
  Highlighter.resolvePath body (App.childPath p i) =
  match Highlighter.resolvePath body p with
  | Some e => Dom.children e !! i
  | None => None
  end.
Proof.
  rewrite !resolvePath_eq, segments_childPath, map_app, fold_left_app.
  simpl. rewrite Number_toString.
  destruct (fold_left _ _ _); reflexivity.
Qed.

(** ** Marking the search text in a label *)

Lemma toLowerCase_length s : String.length (JS.toLowerCase s) = String.length s.
Proof. induction s as [|c s IH]; simpl; [|rewrite IH]; reflexivity. Qed.

Lemma toLowerCase_takeS k :
  ∀ s, JS.toLowerCase (JS.takeS k s) = JS.takeS k (JS.toLowerCase s).
Proof.
  induction k as [|k IH]; intros [|c s]; simpl; try reflexivity.
  rewrite IH. reflexivity.
Qed.

Lemma toLowerCase_dropS k :
  ∀ s, JS.toLowerCase (JS.dropS k s) = JS.dropS k (JS.toLowerCase s).
Proof.
  induction k as [|k IH]; intros [|c s]; simpl; try reflexivity. apply IH.
Qed.

Lemma dropS_add i k : ∀ s, JS.dropS (i + k) s = JS.dropS k (JS.dropS i s).
Proof.
  induction i as [|i IH]; intros s; [reflexivity|].
  destruct s as [|c s]; simpl; [destruct k; reflexivity | apply IH].
Qed.

Lemma startsWith_takeS needle :
  ∀ s, JS.startsWith s needle = true ->
       JS.takeS (String.length needle) s = needle.
Proof.
  induction needle as [|a needle IH]; intros s H; [destruct s; reflexivity|].
  destruct s as [|b s]; [discriminate|]. cbn [JS.startsWith] in H.
  apply andb_true_iff in H as [Hab H]. apply Ascii.eqb_eq in Hab as ->.
  simpl. rewrite (IH s H). reflexivity.
Qed.

Lemma indexOf_Some s :
  ∀ needle i, JS.indexOf s needle = Some i ->
              JS.startsWith (JS.dropS i s) needle = true.
Proof.
  induction s as [|c s IH]; intros needle i H; cbn [JS.indexOf] in H.
  - destruct (JS.startsWith "" needle) eqn:E; [|discriminate].
    injection H as <-. exact E.
  - destruct (JS.startsWith (String c s) needle) eqn:E.
    + injection H as <-. exact E.
    + destruct (JS.indexOf s needle) as [j|] eqn:J; [|discriminate].
      injection H as <-. simpl. apply IH, J.
Qed.

Lemma indexOf_None s :
  ∀ needle, JS.indexOf s needle = None ↔ JS.includes s needle = false.
Proof.
  induction s as [|c s IH]; intros needle; cbn [JS.indexOf JS.includes].
  - destruct (JS.startsWith "" needle); simpl; split; congruence.
  - destruct (JS.startsWith (String c s) needle); simpl;
      [split; discriminate|].
    rewrite <- IH. destruct (JS.indexOf s needle); split; congruence.
Qed.

(** X26.  On ASCII text, where the host's lower-casing changes the
    letters A to Z only, [highlightText] never loses text: what it
    renders is the text itself or three pieces that put together are the
    text, and then the marked piece is as long as the query and equal to
    it up to letter case.  The text is rendered unmarked exactly when the
    query is empty or does not occur in it, letter case ignored. *)
Theorem highlightText_pieces
  (toLowerCase : string -> string) (text query : string) :
  (∀ s, Spec.isAscii s = true -> toLowerCase s = JS.toLowerCase s) ->
  Spec.isAscii text = true ->
  Spec.isAscii query = true ->
  match TreeNodeItem.highlightText toLowerCase text query with
  | TreeNodeItem.Plain t =>
      t = text ∧
      (query = EmptyString ∨
       JS.includes (toLowerCase text) (toLowerCase query) = false)
  | TreeNodeItem.Mark before marked after =>
      before +:+ marked +:+ after = text ∧
      String.length marked = String.length query ∧
      JS.toLowerCase marked = JS.toLowerCase query ∧
      query ≠ EmptyString ∧
      JS.includes (toLowerCase text) (toLowerCase query) = true
  end.
Proof.
  intros Hl Ht Hq. unfold TreeNodeItem.highlightText.
  rewrite (Hl text Ht), (Hl query Hq).
  destruct query as [|q0 query]; [auto|].
  set (query' := String q0 query).
  destruct (JS.indexOf (JS.toLowerCase text) (JS.toLowerCase query'))
    as [i|] eqn:I.
  - pose proof (indexOf_Some _ _ _ I) as S.
    apply startsWith_takeS in S. rewrite toLowerCase_length in S.
    unfold JS.slice, JS.sliceFrom.
    replace (i - 0) with i by lia.
    replace (i + String.length query' - i) with (String.length query') by lia.
    cbn [JS.dropS]. split; [|split; [|split; [|split]]].
    + rewrite dropS_add, takeS_dropS, takeS_dropS. reflexivity.
    + rewrite <- toLowerCase_length, toLowerCase_takeS, toLowerCase_dropS, S.
      apply toLowerCase_length.
    + rewrite toLowerCase_takeS, toLowerCase_dropS. exact S.
    + discriminate.
    + destruct (JS.includes (JS.toLowerCase text) (JS.toLowerCase query'))
        eqn:E; [reflexivity|].
      apply indexOf_None in E. congruence.
  - split; [reflexivity|]. right. apply indexOf_None, I.
Qed.

(** Witness for X26: the query [count] in the label [Counter]. *)
Lemma highlightText_pieces_witness :
  (∀ s, Spec.isAscii s = true -> JS.toLowerCase s = JS.toLowerCase s) ∧
  Spec.isAscii "Counter" = true ∧ Spec.isAscii "count" = true ∧
  TreeNodeItem.highlightText JS.toLowerCase "Counter" "count"
    = TreeNodeItem.Mark "" "Count" "er" ∧
  JS.toLowerCase "Count" = JS.toLowerCase "count".
Proof.
  split; [reflexivity|]. split; [reflexivity|]. split; [reflexivity|].
  split; [reflexivity|].
  exact (proj1 (proj2 (proj2
    (highlightText_pieces JS.toLowerCase "Counter" "count"
       (fun s _ => eq_refl) eq_refl eq_refl)))).
Defined.

(** ** What the auto-expand set shows *)

Lemma flatten_visible_at E pos :
  ∀ t n,
    Spec.nodeAt t pos = Some n ->
    (∀ k m, k < length pos -> Spec.nodeAt t (take k pos) = Some m ->
            App.id m ∈ E) ->
    n ∈ App.flattenVisibleTree t E [].
Proof.
  induction pos as [|j pos IH]; intros t n Hn Hanc; rewrite flatten_cons.
  - simpl in Hn. injection Hn as ->. apply list_elem_of_here.
  - simpl in Hn. destruct (App.children t !! j) as [c|] eqn:Hj; [|done].
    rewrite bool_decide_eq_true_2
      by (apply (Hanc 0 t); [simpl; lia | reflexivity]).
    apply list_elem_of_further, list_elem_of_In, in_flat_map. exists c.
    split; apply list_elem_of_In; [apply list_elem_of_lookup; eauto|].
    apply IH; [exact Hn|]. intros k m Hk Hm.
    apply (Hanc (S k) m); [simpl; lia|]. simpl. rewrite Hj. exact Hm.
Qed.

Lemma filter_origin t :
  ∀ ft, App.filter t = Some ft ->
        ∀ m, m ∈ Spec.nodes ft ->
             ∃ m0, m0 ∈ Spec.nodes t ∧ App.filter m0 = Some m.
Proof.
  induction t as [t IH] using TreeNode_forall_ind. intros ft H m Hm.
  rewrite nodes_eq in Hm. apply elem_of_cons in Hm as [->|Hm].
  - exists t. split; [rewrite nodes_eq; apply list_elem_of_here | exact H].
  - pose proof (filter_shape t ft H) as ->. simpl in Hm.
    apply list_elem_of_In, in_flat_map in Hm as (c' & Hc' & Hm).
    apply list_elem_of_In in Hc', Hm.
    apply list_elem_of_omap in Hc' as (c & Hc & Ec).
    rewrite Forall_forall in IH.
    destruct (IH c Hc c' Ec m Hm) as (m0 & Hm0 & Fm0).
    exists m0. split; [|exact Fm0]. rewrite nodes_eq.
    apply list_elem_of_further, list_elem_of_In, in_flat_map. exists c.
    split; apply list_elem_of_In; assumption.
Qed.

(** X27.  What a fresh fetch shows: with the auto-expand set of a tree
    as the expanded set, every island of the tree is in the visible
    list; and when the islands-only filter is on, the visible list is the
    whole filtered tree. *)
Theorem autoExpandSet_shows_islands (t : App.TreeNode) :
  (∀ isl, isl ∈ Spec.nodes t -> App.isAstroIsland isl = true ->
          isl ∈ App.flattenVisibleTree t (Spec.autoExpandSet t) []) ∧
  (∀ ft, App.filter t = Some ft ->
         App.flattenVisibleTree ft (Spec.autoExpandSet t) [] = Spec.nodes ft).
Proof.
  split.
  - intros isl Hin Hi. apply nodes_nodeAt in Hin as [pos Hp].
    apply (flatten_visible_at _ pos t isl Hp). intros k m _ Hm.
    exact (collectExpandedNodes_reaches pos t ∅ isl k m Hp Hi Hm).
  - intros ft H. apply flatten_all. intros i Hi.
    unfold Spec.ids in Hi. apply list_elem_of_fmap in Hi as (m & -> & Hm).
    destruct (filter_origin t ft H m Hm) as (m0 & Hm0 & Fm0).
    rewrite (filter_shape m0 m Fm0). cbn [App.withChildren App.id].
    assert (I0 : App.hasIslandDescendant m0 = true).
    { destruct (App.hasIslandDescendant m0) eqn:E; [reflexivity|].
      apply filter_None in E. congruence. }
    apply nodes_nodeAt in Hm0 as [pos Hp].
    apply hasIslandDescendant_position in I0 as (pos' & isl & Hp' & Hi').
    apply (collectExpandedNodes_reaches (pos ++ pos') t ∅ isl (length pos) m0).
    + rewrite nodeAt_app, Hp. exact Hp'.
    + exact Hi'.
    + rewrite take_app_length. exact Hp.
Qed.
